(** * Scavenger-hunt solution ([solution.py]): a shallow embedding

    The program walks a tree of HTTP resources.  Every resource answers
    with a JSON object that holds either a [secret] (a leaf) or a [next]
    list of child paths (a branch); the secrets are joined in the order in
    which they are found.  A request that fails with an [error] field makes
    the program fetch a new [Session] token and retry once.

    The embedding follows [solution.py] function by function:
    - JSON values are an inductive type, a Python [dict] is an association
      list in insertion order;
    - the module-level [headers] dict is a [gmap string string];
    - the HTTP server is an oracle that sees every request sent so far;
    - effects (the [headers] dict, the requests sent, the log records) are
      threaded through a state monad whose computations end by returning,
      by raising a Python exception, or by running out of fuel;
    - the generator [get_next_secret] is the list of the values it yields:
      its only caller, ["".join(...)] in [run], consumes it to the end, so
      the effects happen in the same order as in the eager reading.

    Strings are [string]s of 8-bit characters; [str.lower] is modelled on
    the ASCII letters.  JSON numbers are integers.  The interpreter's
    recursion limit is not modelled. *)

From Stdlib Require Import ZArith Ascii String.
From stdpp Require Import gmap strings list fin_maps.

Local Open Scope string_scope.
Local Open Scope list_scope.

(** ** JSON values as Python sees them *)

#[local] Set Warnings "-register-all".

Inductive json : Type :=
  | JNull
  | JBool (b : bool)
  | JNum (n : Z)
  | JStr (s : string)
  | JArr (items : list json)
  | JObj (members : list (string * json)).

(** A Python [dict] with string keys, in insertion order. *)
Abbreviation dict := (list (string * json)).

(** [bool(v)]: [None], [False], [0], the empty string, list and dict are
    falsy. *)
Definition truthy (v : json) : bool :=
  match v with
  | JNull => false
  | JBool b => b
  | JNum n => negb (n =? 0)%Z
  | JStr s => negb (String.eqb s "")
  | JArr items => match items with [] => false | _ => true end
  | JObj members => match members with [] => false | _ => true end
  end.

(** [d.get(k)] *)
Fixpoint dict_get (k : string) (d : dict) : option json :=
  match d with
  | [] => None
  | (k', v) :: d' => if String.eqb k k' then Some v else dict_get k d'
  end.

(** [k in d] *)
Definition dict_mem (k : string) (d : dict) : bool :=
  match dict_get k d with Some _ => true | None => false end.

(** [d[k] = v]: an existing key keeps its position, a new key goes last. *)
Fixpoint dict_set (k : string) (v : json) (d : dict) : dict :=
  match d with
  | [] => [(k, v)]
  | (k', v') :: d' =>
      if String.eqb k k' then (k, v) :: d' else (k', v') :: dict_set k v d'
  end.

(** [not d.get(k)] *)
Definition falsy_get (k : string) (d : dict) : bool :=
  match dict_get k d with
  | Some v => negb (truthy v)
  | None => true
  end.

(** ** UTILS *)

Definition lower_ascii (c : ascii) : ascii :=
  let n := nat_of_ascii c in
  if (65 <=? n)%nat && (n <=? 90)%nat then ascii_of_nat (n + 32) else c.

(** [k.lower()] *)
Fixpoint lower (s : string) : string :=
  match s with
  | EmptyString => EmptyString
  | String c s' => String (lower_ascii c) (lower s')
  end.

(** [{k.lower(): v for k, v in data.items()}]: the comprehension stores the
    items one after the other into a new dict. *)
Definition normalize_keys (data : dict) : dict :=
  fold_left (fun acc kv => dict_set (lower kv.1) kv.2 acc) data [].

(** The value that the last item of [data] whose key lower-cases to [k]
    carries. *)
Fixpoint last_with_lower (k : string) (data : dict) : option json :=
  match data with
  | [] => None
  | (k', v) :: data' =>
      match last_with_lower k data' with
      | Some w => Some w
      | None => if String.eqb k (lower k') then Some v else None
      end
  end.

Definition keys (d : dict) : list string := map fst d.

(** The accumulating loop of the comprehension, from any dict built so far. *)
Definition store_lower (acc : dict) (data : dict) : dict :=
  fold_left (fun acc kv => dict_set (lower kv.1) kv.2 acc) data acc.

(** [str.lower] is a builtin of the interpreter and covers all of Unicode;
    [lower] above is its restriction to the ASCII letters, which is what
    the runs of this file compute with.  The definitions below are
    [normalize_keys] and its companions with the lower-casing function as
    a parameter: [normalize_keys] is [normalize_keys_by lower]. *)
Definition store_by (low : string -> string) (acc : dict) (data : dict) : dict :=
  fold_left (fun acc kv => dict_set (low kv.1) kv.2 acc) data acc.

Definition normalize_keys_by (low : string -> string) (data : dict) : dict :=
  fold_left (fun acc kv => dict_set (low kv.1) kv.2 acc) data [].

(** The value that the last item of [data] whose key [low] takes to [k]
    carries. *)
Fixpoint last_with (low : string -> string) (k : string) (data : dict)
    : option json :=
  match data with
  | [] => None
  | (k', v) :: data' =>
      match last_with low k data' with
      | Some w => Some w
      | None => if String.eqb k (low k') then Some v else None
      end
  end.

(** Two keys that fall together in lower case, and one that does not. *)
Definition colliding_dict : dict :=
  [ ("Secret", JStr "a"); ("NEXT", JArr []); ("SECRET", JStr "b") ].


(** ** The outside world

    [requests.get] sends a request and either raises (no answer at all) or
    returns a response: a status, a body that [response.json()] may or may
    not parse, and the body's text. *)

Record request : Type := {
  url : string;
  req_headers : gmap string string
}.

Record response : Type := {
  status_ok : bool;            (* [raise_for_status()] does not raise *)
  json_body : option json;     (* [response.json()] *)
  text : string                (* [response.text] *)
}.

Inductive http_result : Type :=
  | NoAnswer (reason : string)
  | Answer (r : response).

(** What the program takes from its environment: [args.base], [urljoin]
    and the server, which answers a request knowing the requests that it
    received before (oldest first). *)
Class World : Type := {
  base : string;
  urljoin : string -> string -> string;
  server : list request -> request -> http_result
}.

(** ** Exceptions, log records, state *)

Inductive exc_class : Type := KeyError_class | HTTPError_class.

(** [RaisedTuple cls message] stands for the statement
    [raise (cls, message, traceback)].  (Python 3 reports a raised tuple as
    a [TypeError]; the model keeps the tuple, which tells the three [raise]
    statements of the program apart.)  The other constructors are the
    exceptions that the interpreter and [requests] raise on their own. *)
Inductive exn : Type :=
  | RaisedTuple (cls : exc_class) (message : string)
  | KeyError (key : string)
  | AttributeError (attr : string)
  | TypeError
  | JSONDecodeError
  | RequestException (reason : string).

Definition dq : string := String "034"%char EmptyString.
Definition newline : string := String "010"%char EmptyString.

Definition missing_next_message : string :=
  "Missing " +:+ dq +:+ "next" +:+ dq +:+ " key in response".
Definition refresh_failed_message : string :=
  "Unable to refresh " +:+ dq +:+ "Session" +:+ dq +:+ " token.".
Definition error_missing_message : string :=
  dq +:+ "error" +:+ dq +:+ " key missing from response.".

(** The three errors that the program raises itself, under the names that
    the specification gives them. *)
Definition MissingNextKey : exn := RaisedTuple KeyError_class missing_next_message.
Definition SessionRefreshFailure : exn := RaisedTuple HTTPError_class refresh_failed_message.
Definition MalformedErrorResponse : exn := RaisedTuple HTTPError_class error_missing_message.

(** One constructor for each logging call of the program, with the values
    that the call passes. *)
Inductive log_record : Type :=
  | NewSessionToken (token : string)
  | GetLine (full_url : string) (secret : json)
  | ResponseText (body : string)
  | NextList (joined : string)
  | SecretFound (secret : json) (full_url : string)
  | ResponseError (message : string) (session : option string)
                  (full_url : string) (resp : json).

Inductive event : Type :=
  | Sent (r : request)
  | Logged (l : log_record).

(** [headers] is the module-level dict; [trace] lists what the run has
    done so far, oldest first. *)
Record state : Type := {
  headers : gmap string string;
  trace : list event
}.

Definition init_state : state := {| headers := ∅; trace := [] |}.

Definition requests_of (t : list event) : list request :=
  omap (fun e => match e with Sent r => Some r | Logged _ => None end) t.

Definition refreshes_of (t : list event) : list string :=
  omap (fun e => match e with Logged (NewSessionToken tok) => Some tok | _ => None end) t.

Inductive outcome (A : Type) : Type :=
  | Returned (a : A)
  | Raised (e : exn)
  | OutOfFuel.
Arguments Returned {A} a.
Arguments Raised {A} e.
Arguments OutOfFuel {A}.

Definition M (A : Type) : Type := state -> outcome A * state.

#[global] Instance M_ret : MRet M := fun A a st => (Returned a, st).

#[global] Instance M_bind : MBind M := fun A B f m st =>
  match m st with
  | (Returned a, st') => f a st'
  | (Raised e, st') => (Raised e, st')
  | (OutOfFuel, st') => (OutOfFuel, st')
  end.

Definition raise {A : Type} (e : exn) : M A := fun st => (Raised e, st).
Definition out_of_fuel {A : Type} : M A := fun st => (OutOfFuel, st).

(** The state once [e] has happened. *)
Definition after (st : state) (e : event) : state :=
  {| headers := headers st; trace := trace st ++ [e] |}.

Definition emit (e : event) : M unit := fun st => (Returned tt, after st e).

Definition log (l : log_record) : M unit := emit (Logged l).

Definition read_headers : M (gmap string string) := fun st => (Returned (headers st), st).

(** [headers[k] = v] *)
Definition headers_setitem (k v : string) : M unit := fun st =>
  (Returned tt, {| headers := <[k := v]> (headers st); trace := trace st |}).

(** [headers[k]] *)
Definition headers_getitem (k : string) : M string :=
  h ← read_headers;
  match h !! k with
  | Some v => mret v
  | None => raise (KeyError k)
  end.

(** [d[k]] *)
Definition dict_getitem (k : string) (d : dict) : M json :=
  match dict_get k d with
  | Some v => mret v
  | None => raise (KeyError k)
  end.

(** [try: m except Exception as error: handler(error)] *)
Definition try_except {A : Type} (m : M A) (handler : exn -> M A) : M A := fun st =>
  match m st with
  | (Raised e, st') => handler e st'
  | r => r
  end.

(** [x or y] *)
Definition py_or (x : option json) (y : json) : json :=
  match x with
  | Some v => if truthy v then v else y
  | None => y
  end.

(** [sep.join(l)] on strings *)
Fixpoint join (sep : string) (l : list string) : string :=
  match l with
  | [] => ""
  | [s] => s
  | s :: l' => s +:+ sep +:+ join sep l'
  end.

Definition as_str (v : json) : option string :=
  match v with JStr s => Some s | _ => None end.

(** The strings that iterating over [v] yields, when [v] is an iterable of
    strings: a list of strings, a string (its characters) or a dict (its
    keys). *)
Definition iter_str (v : json) : option (list string) :=
  match v with
  | JArr items => mapM as_str items
  | JStr s => Some (map (fun c => String c EmptyString) (list_ascii_of_string s))
  | JObj members => Some (keys members)
  | _ => None
  end.

(** How the process ends: [parser.exit(status, message)] prints the
    message and exits with [status]; [parser.error(error)] prints the
    error and exits with status 2. *)
Inductive process_exit : Type :=
  | ParserExit (status : Z) (message : string)
  | ParserError (error : exn).

Definition exit_status (e : process_exit) : Z :=
  match e with
  | ParserExit status _ => status
  | ParserError _ => 2%Z
  end.

Section Program.
Context {W : World}.

(** [create_url = partial(urljoin, args.base)] *)
Definition create_url (path : string) : string := urljoin base path.

(** [requests.get(u, headers=h)] *)
Definition requests_get (u : string) (h : gmap string string) : M response := fun st =>
  let req := {| url := u; req_headers := h |} in
  match server (requests_of (trace st)) req with
  | NoAnswer reason => (Raised (RequestException reason), after st (Sent req))
  | Answer r => (Returned r, after st (Sent req))
  end.

(** [response.json()] *)
Definition response_json (r : response) : M json :=
  match json_body r with
  | Some v => mret v
  | None => raise JSONDecodeError
  end.

(** [v.get(k)], which only a dict has. *)
Definition json_get (k : string) (v : json) : M (option json) :=
  match v with
  | JObj d => mret (dict_get k d)
  | _ => raise (AttributeError "get")
  end.

(** ** LOG UTILS *)

Definition log_next_list (next_list : json) : M unit :=
  match iter_str next_list with
  | Some paths => log (NextList (join newline paths))
  | None => raise TypeError
  end.

Definition log_secret_found (secret : json) (full_url : string) : M unit :=
  log (SecretFound secret full_url).

Definition log_response_error (message : string) (session : option string)
    (full_url : string) (resp : json) : M unit :=
  log (ResponseError message session full_url resp).

(** ** CORE *)

(** [request_next(path, is_retry)].  The function calls itself only with
    [is_retry=True] and only when [is_retry] is false, so its calls nest
    two deep at most; [depth] bounds the nesting. *)
Fixpoint request_next_rec (depth : nat) (path : string) (is_retry : bool) : M response :=
  match depth with
  | O => out_of_fuel
  | S depth' =>
      h ← read_headers;
      resp ← requests_get (create_url path) h;
      response_json ← response_json resp;
      if negb (status_ok resp) then
        if is_retry then
          session ← headers_getitem "Session";
          log_response_error refresh_failed_message (Some session)
            (create_url path) response_json;;
          raise SessionRefreshFailure
        else
          err ← json_get "error" response_json;
          if negb (match err with Some v => truthy v | None => false end) then
            session ← headers_getitem "Session";
            log_response_error error_missing_message (Some session)
              (create_url path) response_json;;
            raise MalformedErrorResponse
          else
            fresh ← requests_get (create_url "get-session") ∅;
            headers_setitem "Session" (text fresh);;
            session ← headers_getitem "Session";
            log (NewSessionToken session);;
            request_next_rec depth' path true
      else
        secret ← json_get "secret" response_json;
        log (GetLine (create_url path) (py_or secret (JStr "")));;
        log (ResponseText (text resp));;
        mret resp
  end.

Definition request_next (path : string) : M response :=
  request_next_rec 2 path false.

(** [data.items()] exists on a dict only. *)
Definition items (data : json) : M dict :=
  match data with
  | JObj d => mret d
  | _ => raise (AttributeError "items")
  end.

(** The loop [for next_path in next_list: for next_secret in
    visit(next_path): yield next_secret]. *)
Fixpoint for_each (visit : string -> M (list json)) (next_list : list string)
    : M (list json) :=
  match next_list with
  | [] => mret []
  | next_path :: rest =>
      found ← visit next_path;
      others ← for_each visit rest;
      mret (found ++ others)
  end.

(** [get_next_secret(path)]: the list of the secrets that the generator
    yields.  [fuel] bounds the depth of the recursion. *)
Fixpoint get_next_secret (fuel : nat) (path : string) : M (list json) :=
  match fuel with
  | O => out_of_fuel
  | S fuel' =>
      resp ← request_next (create_url path);
      data ← response_json resp;
      raw ← items data;
      let response_data := normalize_keys raw in
      match dict_get "secret" response_data with
      | Some secret =>
          log_secret_found secret (create_url path);;
          mret [secret]
      | None =>
          if falsy_get "next" response_data then
            h ← read_headers;
            log_response_error missing_next_message (h !! "Session")
              (create_url path) (JObj response_data);;
            raise MissingNextKey
          else
            next_list ← dict_getitem "next" response_data;
            log_next_list next_list;;
            match iter_str next_list with
            | Some paths => for_each (get_next_secret fuel') paths
            | None => raise TypeError
            end
      end
  end.

(** ** MAIN *)

(** ["".join(secrets)] accepts strings only. *)
Definition join_secrets (secrets : list json) : M string :=
  match mapM as_str secrets with
  | Some l => mret (join "" l)
  | None => raise TypeError
  end.

Definition run (fuel : nat) : M process_exit :=
  try_except
    (secrets ← get_next_secret fuel "start";
     message ← join_secrets secrets;
     mret (ParserExit 0 message))
    (fun error => mret (ParserError error)).

End Program.

(** ** Trees of resources

    The shape that the traversal expects from the server: a leaf answers
    with a secret, a branch with the paths of its children. *)

Inductive tree : Type :=
  | Leaf (secret : json)
  | Branch (children : list (string * tree)).

(** The secrets of the leaves, depth first, children from left to right. *)
Fixpoint secrets (t : tree) : list json :=
  match t with
  | Leaf secret => [secret]
  | Branch children => flat_map (fun c => secrets c.2) children
  end.

Fixpoint leaves (t : tree) : nat :=
  match t with
  | Leaf _ => 1
  | Branch children => list_sum (map (fun c => leaves c.2) children)
  end.

Fixpoint depth (t : tree) : nat :=
  match t with
  | Leaf _ => 0
  | Branch children => S (list_max (map (fun c => depth c.2) children))
  end.

Section Served.
Context {W : World}.

(** Fetching [path] returns, in every state, a response whose body is the
    JSON object [d]. *)
Definition fetches (path : string) (d : dict) : Prop :=
  forall st, exists r st',
    request_next (create_url path) st = (Returned r, st') /\
    json_body r = Some (JObj d).

(** The server serves the tree [t] at [path]: a leaf carries its secret, a
    branch carries no secret and a non-empty [next] list with the paths of
    its children, each of which serves the child's tree. *)
Fixpoint serves (path : string) (t : tree) : Prop :=
  match t with
  | Leaf secret =>
      exists d, fetches path d /\
        dict_get "secret" (normalize_keys d) = Some secret
  | Branch children =>
      children <> [] /\
      (exists d, fetches path d /\
         dict_get "secret" (normalize_keys d) = None /\
         dict_get "next" (normalize_keys d) =
           Some (JArr (map (fun c => JStr c.1) children))) /\
      (fix all (cs : list (string * tree)) : Prop :=
         match cs with
         | [] => True
         | c :: cs' => serves c.1 c.2 /\ all cs'
         end) children
  end.

(** The call [get_next_secret(path)] made in [st] leads to the call
    [get_next_secret(path')] in [st']: it is that call, or the node at
    [path] is a branch, the children before some child have been
    traversed to the end, and the call for that child leads there. *)
Inductive visits : nat -> string -> state -> nat -> string -> state -> Prop :=
  | visits_here fuel path st : visits fuel path st fuel path st
  | visits_child fuel path st r st1 d next_list st2 before child later found st3
        fuel' path' st' :
      request_next (create_url path) st = (Returned r, st1) ->
      json_body r = Some (JObj d) ->
      dict_get "secret" (normalize_keys d) = None ->
      dict_get "next" (normalize_keys d) = Some next_list ->
      truthy next_list = true ->
      iter_str next_list = Some (before ++ child :: later) ->
      log_next_list next_list st1 = (Returned tt, st2) ->
      for_each (get_next_secret fuel) before st2 = (Returned found, st3) ->
      visits fuel child st3 fuel' path' st' ->
      visits (S fuel) path st fuel' path' st'.

End Served.

(** ** The credential along a trace *)

(** The [headers] dict after the events [t], when only the refresh step
    (which logs the new token) writes it. *)
Definition credential_after (h : gmap string string) (t : list event)
    : gmap string string :=
  match last (refreshes_of t) with
  | Some token => <["Session" := token]> h
  | None => h
  end.

(** The same, event by event. *)
Fixpoint replay (h : gmap string string) (t : list event) : gmap string string :=
  match t with
  | [] => h
  | Logged (NewSessionToken token) :: t' => replay (<["Session" := token]> h) t'
  | _ :: t' => replay h t'
  end.

(** The events of [t] that come before its first refresh. *)
Fixpoint before_refresh (t : list event) : list event :=
  match t with
  | [] => []
  | Logged (NewSessionToken _) :: _ => []
  | e :: t' => e :: before_refresh t'
  end.

(** Every request of [t] carries the [headers] dict of its time, [h] at
    first, or no header at all. *)
Fixpoint carries (h : gmap string string) (t : list event) : Prop :=
  match t with
  | [] => True
  | Sent r :: t' => (req_headers r = h \/ req_headers r = ∅) /\ carries h t'
  | Logged (NewSessionToken token) :: t' => carries (<["Session" := token]> h) t'
  | Logged _ :: t' => carries h t'
  end.

(** [st'] comes after [st] by events that change the [headers] at a
    refresh only and by requests that carry the [headers] of their time. *)
Definition follows (st st' : state) : Prop :=
  exists new,
    trace st' = trace st ++ new /\
    headers st' = replay (headers st) new /\
    carries (headers st) new.

Definition preserves {A : Type} (m : M A) : Prop :=
  forall st out st', m st = (out, st') -> follows st st'.

(** [m] ends by returning or raising, whatever the state. *)
Definition settled {A : Type} (m : M A) : Prop :=
  forall st, (m st).1 <> OutOfFuel.

(** The log records that [get_next_secret] writes itself (all others come
    from [request_next]). *)
Definition own_record (l : log_record) : bool :=
  match l with
  | SecretFound _ _ | NextList _ => true
  | ResponseError message _ _ _ => String.eqb message missing_next_message
  | _ => false
  end.

Definition own_records (t : list event) : list log_record :=
  omap (fun e => match e with
                 | Logged l => if own_record l then Some l else None
                 | Sent _ => None
                 end) t.

(** ** Example servers *)

Definition example_base : string := "http://localhost:5000".

(** [urljoin] on the URLs of the examples: an absolute URL stays, a
    relative path goes under the base. *)
Definition example_urljoin (b p : string) : string :=
  if String.prefix b p then p else b +:+ "/" +:+ p.

Definition ok (body : dict) : response :=
  {| status_ok := true; json_body := Some (JObj body); text := "" |}.

Definition failed (body : dict) : response :=
  {| status_ok := false; json_body := Some (JObj body); text := "" |}.

Definition plain (body : string) : response :=
  {| status_ok := true; json_body := None; text := body |}.

Fixpoint assoc {A : Type} (k : string) (l : list (string * A)) : option A :=
  match l with
  | [] => None
  | (k', a) :: l' => if String.eqb k k' then Some a else assoc k l'
  end.

(** A server that answers each path of [table] with its response,
    whatever the headers and whatever came before. *)
Definition table_server (table : list (string * response))
    : list request -> request -> http_result :=
  fun _ req =>
    match assoc (url req) (map (fun kv => (example_urljoin example_base kv.1, kv.2)) table) with
    | Some r => Answer r
    | None => NoAnswer "connection refused"
    end.

Definition table_world (table : list (string * response)) : World :=
  {| base := example_base; urljoin := example_urljoin;
     server := table_server table |}.

(** A server that wants the token [token] in the [Session] header, hands
    it out at [get-session], and answers the other requests with a failure
    that carries an [error] field. *)
Definition session_server (token : string) (table : list (string * response))
    : list request -> request -> http_result :=
  fun hist req =>
    if String.eqb (url req) (example_urljoin example_base "get-session") then
      Answer (plain token)
    else
      match req_headers req !! "Session" with
      | Some t =>
          if String.eqb t token then table_server table hist req
          else Answer (failed [("error", JStr "session expired")])
      | None => Answer (failed [("error", JStr "session expired")])
      end.

Definition session_world (token : string) (table : list (string * response)) : World :=
  {| base := example_base; urljoin := example_urljoin;
     server := session_server token table |}.

(** The tree of the end-to-end example. *)
Definition example_tree_table : list (string * response) :=
  [ ("start", ok [("next", JArr [JStr "a"; JStr "b"])]);
    ("a", ok [("secret", JStr "X")]);
    ("b", ok [("Next", JArr [JStr "c"])]);
    ("c", ok [("SECRET", JStr "Y")]) ].

Definition example_tree : tree :=
  Branch [ ("a", Leaf (JStr "X"));
           ("b", Branch [ ("c", Leaf (JStr "Y")) ]) ].

(** Nodes that are not what a tree has: no [next] at all, an empty
    [next], both a secret and a [next] list, an empty secret, a [next]
    that is [null]. *)
Definition odd_nodes_table : list (string * response) :=
  [ ("absent", ok []);
    ("empty", ok [("Next", JArr [])]);
    ("both", ok [("secret", JStr "S"); ("next", JArr [JStr "absent"])]);
    ("blank", ok [("secret", JStr "")]);
    ("null", ok [("next", JNull)]) ].

(** A tree whose second child is malformed. *)
Definition broken_tree_table : list (string * response) :=
  [ ("start", ok [("next", JArr [JStr "a"; JStr "b"; JStr "c"])]);
    ("a", ok [("secret", JStr "X")]);
    ("b", ok []);
    ("c", ok [("secret", JStr "Y")]) ].

(** A state in which an earlier refresh has left the token ["old"]. *)
Definition cred_state : state :=
  {| headers := {["Session" := "old"]}; trace := [] |}.

(** Failures at [start]: with a truthy [error] (and a server that never
    accepts the token), with an empty [error], with an [Error] key in
    another case, with no field at all. *)
Definition always_failing_world : World :=
  session_world "new" [("start", failed [("error", JStr "session expired")])].

Definition empty_error_table : list (string * response) :=
  [ ("start", failed [("error", JStr "")]) ].

Definition capital_error_table : list (string * response) :=
  [ ("start", failed [("Error", JStr "session expired")]) ].

Definition bare_failure_table : list (string * response) :=
  [ ("start", failed []) ].

(** The second end-to-end example: [start] wants a token first. *)
Definition guarded_leaf_world : World :=
  session_world "tok" [("start", ok [("secret", JStr "Z")])].

(** ** Walks, direct answers, error reports *)

(** The paths of a tree in the order of a depth-first walk, a node before
    its children, the children from left to right. *)
Fixpoint preorder (path : string) (t : tree) : list string :=
  path :: match t with
          | Leaf _ => []
          | Branch children => flat_map (fun c => preorder c.1 c.2) children
          end.

Section Direct.
Context {W : World}.

(** The URL that the request for [path] goes to: [get_next_secret]
    resolves the path, and [request_next] resolves the result again. *)
Definition node_url (path : string) : string := create_url (create_url path).

Definition node_request (h : gmap string string) (path : string) : request :=
  {| url := node_url path; req_headers := h |}.

(** The server answers the request for [path] with a success status and
    the JSON object [d], whatever came before, when the headers of the
    request are [good]. *)
Definition answers (good : gmap string string -> Prop) (path : string)
    (d : dict) : Prop :=
  forall hist h, good h -> exists r,
    server hist (node_request h path) = Answer r /\
    status_ok r = true /\
    json_body r = Some (JObj d).

(** [serves], with every node answered at the first attempt to requests
    with [good] headers. *)
Fixpoint serves_directly (good : gmap string string -> Prop) (path : string)
    (t : tree) : Prop :=
  match t with
  | Leaf secret =>
      exists d, answers good path d /\
        dict_get "secret" (normalize_keys d) = Some secret
  | Branch children =>
      children <> [] /\
      (exists d, answers good path d /\
         dict_get "secret" (normalize_keys d) = None /\
         dict_get "next" (normalize_keys d) =
           Some (JArr (map (fun c => JStr c.1) children))) /\
      (fix all (cs : list (string * tree)) : Prop :=
         match cs with
         | [] => True
         | c :: cs' => serves_directly good c.1 c.2 /\ all cs'
         end) children
  end.

(** From a state with [good] headers, [visit] returns the secrets of [t]
    after one request for each path of [nodes], in that order and with
    the headers of the state, which it leaves as they are; it does not
    refresh. *)
Definition walked (good : gmap string string -> Prop) (visit : M (list json))
    (found : list json) (nodes : list string) : Prop :=
  forall st, good (headers st) ->
    exists new,
      visit st =
        (Returned found, {| headers := headers st; trace := trace st ++ new |}) /\
      requests_of new = map (node_request (headers st)) nodes /\
      refreshes_of new = [].

(** The server turns down the request for [path] with a failure that
    carries a truthy [error], when the headers are not [good]. *)
Definition demands (good : gmap string string -> Prop) (path : string) : Prop :=
  forall hist h, ~ good h -> exists r d err,
    server hist (node_request h path) = Answer r /\
    status_ok r = false /\
    json_body r = Some (JObj d) /\
    dict_get "error" d = Some err /\
    truthy err = true.

(** The session endpoint always answers, with [token] as its text. *)
Definition hands_out (token : string) : Prop :=
  forall hist, exists fresh,
    server hist {| url := create_url "get-session"; req_headers := ∅ |} =
      Answer fresh /\
    text fresh = token.

End Direct.

(** When [m] raises one of the program's own errors, the last thing it
    has done is to log the error report with the message of the error. *)
Definition reports {A : Type} (m : M A) : Prop :=
  forall st cls message st',
    m st = (Raised (RaisedTuple cls message), st') ->
    exists session full_url resp,
      last (trace st') =
      Some (Logged (ResponseError message session full_url resp)).

(** ** More example servers *)

(** A branch whose only child is the branch itself. *)
Definition loop_table : list (string * response) :=
  [ ("start", ok [("next", JArr [JStr "start"])]) ].

(** Nodes with values of other types than the expected ones: a [next]
    that is a string, a [next] list with a number in it, a secret that is
    a number. *)
Definition quirky_table : list (string * response) :=
  [ ("letters", ok [("next", JStr "ab")]);
    ("a", ok [("secret", JStr "1")]);
    ("b", ok [("secret", JStr "2")]);
    ("mixed", ok [("next", JArr [JStr "a"; JNum 7])]);
    ("start", ok [("secret", JNum 5)]) ].

(** Failures whose body is not a JSON object: an HTML page, a JSON list. *)
Definition html_failure_table : list (string * response) :=
  [ ("start", {| status_ok := false; json_body := None; text := "<html>" |});
    ("list", {| status_ok := false; json_body := Some (JArr []); text := "[]" |}) ].

(** A server whose nodes ask for a refresh and whose session endpoint
    is down. *)
Definition no_session_world : World :=
  {| base := example_base; urljoin := example_urljoin;
     server := fun hist req =>
       if String.eqb (url req) (example_urljoin example_base "get-session")
       then NoAnswer "connection refused"
       else Answer (failed [("error", JStr "session expired")]) |}.

(** Keys in several cases, all different once lower-cased. *)
Definition mixed_case_dict : dict :=
  [ ("Secret", JStr "s"); ("NEXT", JArr []); ("error", JNull) ].

(** * Facts *)

(** ** Dicts and [normalize_keys] *)

Lemma lower_ascii_idem c : lower_ascii (lower_ascii c) = lower_ascii c.
Proof. destruct c as [[] [] [] [] [] [] [] []]; reflexivity. Qed.

Lemma lower_idem s : lower (lower s) = lower s.
Proof.
  induction s as [|c s IH]; simpl; [reflexivity|].
  rewrite lower_ascii_idem, IH. reflexivity.
Qed.

Lemma dict_get_set k k' v d :
  dict_get k' (dict_set k v d) =
  if String.eqb k' k then Some v else dict_get k' d.
Proof.
  induction d as [|[k0 v0] d IH]; simpl.
  - reflexivity.
  - destruct (String.eqb_spec k k0) as [->|Hk]; simpl.
    + destruct (String.eqb k' k0); reflexivity.
    + rewrite IH. destruct (String.eqb_spec k' k0) as [->|Hk0].
      * destruct (String.eqb_spec k0 k); congruence.
      * reflexivity.
Qed.

Lemma keys_dict_set k v d :
  keys (dict_set k v d) =
  if dict_mem k d then keys d else keys d ++ [k].
Proof.
  unfold dict_mem. induction d as [|[k0 v0] d IH]; simpl.
  - reflexivity.
  - destruct (String.eqb_spec k k0) as [->|Hk]; simpl.
    + reflexivity.
    + unfold keys in *. rewrite IH.
      destruct (dict_get k d); reflexivity.
Qed.

Lemma dict_set_fresh k v d : dict_mem k d = false -> dict_set k v d = d ++ [(k, v)].
Proof.
  unfold dict_mem. induction d as [|[k0 v0] d IH]; simpl; intros H.
  - reflexivity.
  - destruct (String.eqb k k0); [discriminate|]. rewrite IH; auto.
Qed.

Lemma dict_mem_app k d1 d2 :
  dict_mem k (d1 ++ d2) = dict_mem k d1 || dict_mem k d2.
Proof.
  unfold dict_mem. induction d1 as [|[k0 v0] d1 IH]; simpl.
  - reflexivity.
  - destruct (String.eqb k k0); auto.
Qed.

Lemma dict_mem_keys k d : dict_mem k d = true <-> In k (keys d).
Proof.
  unfold dict_mem. induction d as [|[k0 v0] d IH]; simpl.
  - split; [discriminate|tauto].
  - destruct (String.eqb_spec k k0) as [->|Hk].
    + split; auto.
    + rewrite IH. split; [auto|]. intros [H|H]; [congruence|auto].
Qed.

Lemma store_lower_get k data : forall acc,
  dict_get k (store_lower acc data) =
  match last_with_lower k data with
  | Some w => Some w
  | None => dict_get k acc
  end.
Proof.
  unfold store_lower.
  induction data as [|[k0 v0] data IH]; intros acc; simpl.
  - reflexivity.
  - rewrite IH, dict_get_set.
    destruct (last_with_lower k data); [reflexivity|].
    destruct (String.eqb k (lower k0)); reflexivity.
Qed.

Lemma store_lower_keys_lower data : forall acc,
  Forall (fun k => lower k = k) (keys acc) ->
  Forall (fun k => lower k = k) (keys (store_lower acc data)).
Proof.
  unfold store_lower.
  induction data as [|[k0 v0] data IH]; intros acc Hacc; simpl.
  - exact Hacc.
  - apply IH. rewrite keys_dict_set.
    destruct (dict_mem (lower k0) acc); [exact Hacc|].
    apply Forall_app; split; [exact Hacc|].
    constructor; [apply lower_idem|constructor].
Qed.

Lemma store_lower_NoDup data : forall acc,
  NoDup (keys acc) -> NoDup (keys (store_lower acc data)).
Proof.
  unfold store_lower.
  induction data as [|[k0 v0] data IH]; intros acc Hacc; simpl.
  - exact Hacc.
  - apply IH. rewrite keys_dict_set.
    destruct (dict_mem (lower k0) acc) eqn:E; [exact Hacc|].
    apply NoDup_app. split; [exact Hacc|]. split.
    + intros x Hx Hx'. apply list_elem_of_In in Hx, Hx'.
      destruct Hx' as [<-|[]].
      apply dict_mem_keys in Hx. congruence.
    + apply NoDup_singleton.
Qed.

(** Storing, under their own keys, the items of a dict whose keys are
    distinct and not yet present appends them. *)
Lemma store_lower_append data : forall acc,
  Forall (fun k => lower k = k) (keys data) ->
  NoDup (keys data) ->
  (forall k, In k (keys data) -> dict_mem k acc = false) ->
  store_lower acc data = acc ++ data.
Proof.
  unfold store_lower.
  induction data as [|[k0 v0] data IH]; intros acc Hlow Hnd Hfresh; simpl.
  - symmetry. apply app_nil_r.
  - simpl in Hlow, Hnd. inversion Hlow as [|? ? Hk0 Hlow']; subst.
    inversion Hnd as [|? ? Hnotin Hnd']; subst.
    simpl in Hk0. rewrite Hk0.
    rewrite dict_set_fresh by (apply Hfresh; simpl; auto).
    rewrite IH; auto.
    + rewrite <- app_assoc. reflexivity.
    + intros k Hk. rewrite dict_mem_app.
      rewrite Hfresh by (simpl; auto). simpl.
      unfold dict_mem. simpl.
      destruct (String.eqb_spec k k0) as [->|]; [|reflexivity].
      exfalso. apply Hnotin. apply list_elem_of_In. exact Hk.
Qed.

Lemma dict_set_items k v d kv :
  In kv (dict_set k v d) -> kv = (k, v) \/ In kv d.
Proof.
  induction d as [|[k0 v0] d IH]; simpl.
  - intros [<-|[]]. auto.
  - destruct (String.eqb k k0); simpl.
    + intros [<-|H]; auto.
    + intros [<-|H]; auto. destruct (IH H); auto.
Qed.

Lemma store_lower_items data : forall acc kv,
  In kv (store_lower acc data) ->
  In kv acc \/ exists k0, In (k0, kv.2) data /\ kv.1 = lower k0.
Proof.
  unfold store_lower.
  induction data as [|[k0 v0] data IH]; intros acc kv; simpl.
  - auto.
  - intros H. destruct (IH _ _ H) as [H'|(k1 & H1 & H2)].
    + destruct (dict_set_items _ _ _ _ H') as [->|H'']; [|auto].
      right. exists k0. simpl. auto.
    + right. exists k1. auto.
Qed.

Lemma last_with_lower_mem k0 v0 data :
  In (k0, v0) data -> is_Some (last_with_lower (lower k0) data).
Proof.
  induction data as [|[k1 v1] data IH]; simpl; [tauto|].
  intros [H|H].
  - injection H as -> ->. destruct (last_with_lower (lower k0) data); [eauto|].
    rewrite String.eqb_refl. eauto.
  - destruct (IH H) as [w ->]. eauto.
Qed.

(** *** With any lower-casing function *)

Section Lowercase.
Variable low : string -> string.

Lemma store_by_get k data : forall acc,
  dict_get k (store_by low acc data) =
  match last_with low k data with
  | Some w => Some w
  | None => dict_get k acc
  end.
Proof.
  unfold store_by.
  induction data as [|[k0 v0] data IH]; intros acc; simpl.
  - reflexivity.
  - rewrite IH, dict_get_set.
    destruct (last_with low k data); [reflexivity|].
    destruct (String.eqb k (low k0)); reflexivity.
Qed.

Lemma store_by_keys_fixed data :
  (forall s, low (low s) = low s) ->
  forall acc,
  Forall (fun k => low k = k) (keys acc) ->
  Forall (fun k => low k = k) (keys (store_by low acc data)).
Proof.
  unfold store_by. intros Hidem.
  induction data as [|[k0 v0] data IH]; intros acc Hacc; simpl.
  - exact Hacc.
  - apply IH. rewrite keys_dict_set.
    destruct (dict_mem (low k0) acc); [exact Hacc|].
    apply Forall_app; split; [exact Hacc|].
    constructor; [apply Hidem|constructor].
Qed.

Lemma store_by_NoDup data : forall acc,
  NoDup (keys acc) -> NoDup (keys (store_by low acc data)).
Proof.
  unfold store_by.
  induction data as [|[k0 v0] data IH]; intros acc Hacc; simpl.
  - exact Hacc.
  - apply IH. rewrite keys_dict_set.
    destruct (dict_mem (low k0) acc) eqn:E; [exact Hacc|].
    apply NoDup_app. split; [exact Hacc|]. split.
    + intros x Hx Hx'. apply list_elem_of_In in Hx, Hx'.
      destruct Hx' as [<-|[]].
      apply dict_mem_keys in Hx. congruence.
    + apply NoDup_singleton.
Qed.

(** Storing the items of a dict whose lower-cased keys are distinct and
    not yet present appends them, each under its lower-cased key. *)
Lemma store_by_distinct data : forall acc,
  NoDup (map low (keys data)) ->
  (forall k, In k (map low (keys data)) -> dict_mem k acc = false) ->
  store_by low acc data = acc ++ map (fun kv => (low kv.1, kv.2)) data.
Proof.
  unfold store_by.
  induction data as [|[k0 v0] data IH]; intros acc Hnd Hfresh; simpl.
  - symmetry. apply app_nil_r.
  - simpl in Hnd. inversion Hnd as [|? ? Hnotin Hnd']; subst.
    rewrite dict_set_fresh by (apply Hfresh; simpl; auto).
    rewrite IH; auto.
    + rewrite <- app_assoc. reflexivity.
    + intros k Hk. rewrite dict_mem_app.
      rewrite Hfresh by (simpl; auto). simpl.
      unfold dict_mem. simpl.
      destruct (String.eqb_spec k (low k0)) as [->|]; [|reflexivity].
      exfalso. apply Hnotin. apply list_elem_of_In. exact Hk.
Qed.

Lemma store_by_items data : forall acc kv,
  In kv (store_by low acc data) ->
  In kv acc \/ exists k0, In (k0, kv.2) data /\ kv.1 = low k0.
Proof.
  unfold store_by.
  induction data as [|[k0 v0] data IH]; intros acc kv; simpl.
  - auto.
  - intros H. destruct (IH _ _ H) as [H'|(k1 & H1 & H2)].
    + destruct (dict_set_items _ _ _ _ H') as [->|H'']; [|auto].
      right. exists k0. simpl. auto.
    + right. exists k1. auto.
Qed.

Lemma last_with_mem k0 v0 data :
  In (k0, v0) data -> is_Some (last_with low (low k0) data).
Proof.
  induction data as [|[k1 v1] data IH]; simpl; [tauto|].
  intros [H|H].
  - injection H as -> ->. destruct (last_with low (low k0) data); [eauto|].
    rewrite String.eqb_refl. eauto.
  - destruct (IH H) as [w ->]. eauto.
Qed.

Lemma map_fixed_keys (d : dict) :
  Forall (fun k => low k = k) (keys d) ->
  map (fun kv => (low kv.1, kv.2)) d = d.
Proof.
  induction d as [|[k v] d IH]; intros H; [reflexivity|].
  inversion H as [|? ? Hk Hd]; subst. simpl in *.
  rewrite Hk, IH; auto.
Qed.

Lemma map_fixed (ks : list string) :
  Forall (fun k => low k = k) ks -> map low ks = ks.
Proof.
  induction 1 as [|k ks Hk _ IH]; [reflexivity|].
  simpl. rewrite Hk, IH. reflexivity.
Qed.

End Lowercase.

(** C6. [normalize_keys] is a function of its argument alone (it takes no
    state and returns a new dict).  [low] stands for [str.lower], of which
    the one property used is that lower-casing twice is lower-casing once.
    The result is a dict whose keys are distinct and lower-case; every
    item of the result carries the value of an item of the argument under
    that item's lower-cased key, and every key of the argument is there in
    lower case; a look-up finds the value of the last item of the argument
    whose key lower-cases to the looked-up key; and normalising twice is
    normalising once. *)
Theorem normalize_keys_lowercases_and_is_idempotent (low : string -> string)
    (m : dict) :
  (forall s, low (low s) = low s) ->
  normalize_keys_by low (normalize_keys_by low m) = normalize_keys_by low m /\
  NoDup (keys (normalize_keys_by low m)) /\
  Forall (fun k => low k = k) (keys (normalize_keys_by low m)) /\
  Forall (fun kv => exists k0, In (k0, kv.2) m /\ kv.1 = low k0)
         (normalize_keys_by low m) /\
  Forall (fun kv => dict_mem (low kv.1) (normalize_keys_by low m) = true) m /\
  (forall k, dict_get k (normalize_keys_by low m) = last_with low k m).
Proof.
  intros Hidem.
  assert (Hnd : NoDup (keys (normalize_keys_by low m))).
  { apply (store_by_NoDup low m []). constructor. }
  assert (Hlow : Forall (fun k => low k = k) (keys (normalize_keys_by low m))).
  { apply (store_by_keys_fixed low m Hidem []). constructor. }
  assert (Hget : forall k, dict_get k (normalize_keys_by low m) = last_with low k m).
  { intros k. change (normalize_keys_by low m) with (store_by low [] m).
    rewrite store_by_get. simpl. destruct (last_with low k m); reflexivity. }
  repeat split; try assumption.
  - change (normalize_keys_by low (normalize_keys_by low m))
      with (store_by low [] (normalize_keys_by low m)).
    rewrite store_by_distinct.
    + apply map_fixed_keys, Hlow.
    + rewrite (map_fixed low _ Hlow). exact Hnd.
    + reflexivity.
  - apply List.Forall_forall. intros kv Hkv.
    destruct (store_by_items low m [] kv Hkv) as [[]|H]. exact H.
  - apply List.Forall_forall. intros [k0 v0] Hkv. simpl.
    unfold dict_mem. rewrite Hget.
    destruct (last_with_mem low _ _ _ Hkv) as [w ->]. reflexivity.
Qed.

Lemma normalize_keys_lowercases_and_is_idempotent_witness :
  normalize_keys = normalize_keys_by lower /\
  lower "Secret NEXT @AZ[`az{ 09" = "secret next @az[`az{ 09" /\
  normalize_keys colliding_dict = [ ("secret", JStr "b"); ("next", JArr []) ] /\
  normalize_keys (normalize_keys colliding_dict) = normalize_keys colliding_dict /\
  dict_get "secret" (normalize_keys colliding_dict) =
    last_with lower "secret" colliding_dict.
Proof.
  destruct (normalize_keys_lowercases_and_is_idempotent lower colliding_dict
              lower_idem) as (Hidem & _ & _ & _ & _ & Hget).
  split; [reflexivity|]. split; [reflexivity|]. split; [reflexivity|].
  split; [exact Hidem | exact (Hget "secret")].
Defined.

(** ** The traversal, one node at a time *)

Section Traversal.
Context {W : World}.

(** What [get_next_secret] does once the fetch of its node has returned
    the JSON object [d]. *)
Lemma get_next_secret_fetched fuel path st r st1 d :
  request_next (create_url path) st = (Returned r, st1) ->
  json_body r = Some (JObj d) ->
  get_next_secret (S fuel) path st =
  match dict_get "secret" (normalize_keys d) with
  | Some secret =>
      (Returned [secret], after st1 (Logged (SecretFound secret (create_url path))))
  | None =>
      if falsy_get "next" (normalize_keys d) then
        (Raised MissingNextKey,
         after st1 (Logged (ResponseError missing_next_message
                              (headers st1 !! "Session") (create_url path)
                              (JObj (normalize_keys d)))))
      else
        (next_list ← dict_getitem "next" (normalize_keys d);
         log_next_list next_list;;
         match iter_str next_list with
         | Some paths => for_each (get_next_secret fuel) paths
         | None => raise TypeError
         end) st1
  end.
Proof.
  intros Hfetch Hbody. simpl get_next_secret.
  unfold mbind at 1, M_bind at 1. rewrite Hfetch.
  unfold response_json. rewrite Hbody.
  unfold mbind at 1 2, M_bind at 1 2. cbn [mret M_ret items].
  destruct (dict_get "secret" (normalize_keys d)) as [secret|] eqn:Hs.
  - reflexivity.
  - destruct (falsy_get "next" (normalize_keys d)) eqn:Hn; reflexivity.
Qed.

End Traversal.

(** ** Trees: the order of the secrets *)

Section Trees.
Context {W : World}.

Lemma mapM_as_str_JStr (l : list string) : mapM as_str (map JStr l) = Some l.
Proof.
  induction l as [|s l IH]; [reflexivity|].
  cbn. rewrite IH. reflexivity.
Qed.

Lemma iter_str_paths (children : list (string * tree)) :
  iter_str (JArr (map (fun c => JStr c.1) children)) = Some (map fst children).
Proof.
  unfold iter_str. rewrite <- mapM_as_str_JStr. f_equal.
  rewrite map_map. reflexivity.
Qed.

Lemma leaves_secrets (t : tree) : length (secrets t) = leaves t.
Proof.
  revert t. fix IH 1. intros [secret|children]; [reflexivity|].
  simpl. induction children as [|[p c] cs IHcs]; [reflexivity|].
  simpl. rewrite length_app, IHcs, IH. reflexivity.
Qed.

(** The loop over the children of a branch, when each child's call
    returns the secrets of the child's tree. *)
Lemma for_each_children (visit : string -> M (list json)) :
  forall (children : list (string * tree)) st,
  Forall (fun c => forall st0, exists st0',
            visit c.1 st0 = (Returned (secrets c.2), st0')) children ->
  exists st',
    for_each visit (map fst children) st =
    (Returned (flat_map (fun c => secrets c.2) children), st').
Proof.
  induction children as [|[p c] cs IH]; intros st Hall.
  - exists st. reflexivity.
  - inversion Hall as [|? ? Hc Hcs]; subst.
    destruct (Hc st) as [st1 H1]. destruct (IH st1 Hcs) as [st2 H2].
    exists st2. simpl in *. unfold mbind, M_bind.
    rewrite H1, H2. reflexivity.
Qed.

Lemma traversal_returns_secrets : forall fuel t path st,
  serves path t -> depth t < fuel ->
  exists st', get_next_secret fuel path st = (Returned (secrets t), st').
Proof.
  induction fuel as [|fuel IH]; intros t path st Hserves Hdepth; [lia|].
  destruct t as [secret|children].
  - destruct Hserves as (d & Hfetch & Hsecret).
    destruct (Hfetch st) as (r & st1 & Hr & Hbody).
    rewrite (get_next_secret_fetched _ _ _ _ _ _ Hr Hbody), Hsecret.
    eexists. reflexivity.
  - destruct Hserves as (Hne & (d & Hfetch & Hsecret & Hnext) & Hall).
    destruct (Hfetch st) as (r & st1 & Hr & Hbody).
    rewrite (get_next_secret_fetched _ _ _ _ _ _ Hr Hbody), Hsecret.
    unfold falsy_get, dict_getitem. rewrite Hnext.
    replace (negb (truthy (JArr (map (fun c => JStr c.1) children)))) with false
      by (destruct children; [congruence|reflexivity]).
    unfold mbind, M_bind, mret, M_ret, log_next_list.
    rewrite iter_str_paths. unfold log, emit.
    apply for_each_children.
    simpl in Hdepth. apply Nat.succ_lt_mono in Hdepth.
    clear - IH Hall Hdepth.
    induction children as [|[p c] cs IHcs]; constructor.
    + intros st0. apply IH; [apply Hall|]. simpl in Hdepth. simpl. lia.
    + apply IHcs; [apply Hall|]. simpl in Hdepth. lia.
Qed.

End Trees.

(** C1. When the server serves a finite tree (every branch has a non-empty
    [next] list, every path ends in a leaf), [get_next_secret] returns,
    with any fuel above the depth of the tree and from any state, exactly
    the secrets of the leaves, one per leaf, depth first and from left to
    right: the secrets of a child's subtree come before those of the next
    child. *)
Theorem get_next_secret_depth_first `{W : World} (t : tree) (path : string)
    (fuel : nat) (st : state) :
  serves path t ->
  depth t < fuel ->
  (exists st', get_next_secret fuel path st = (Returned (secrets t), st')) /\
  length (secrets t) = leaves t.
Proof.
  intros Hserves Hdepth. split.
  - apply traversal_returns_secrets; assumption.
  - apply leaves_secrets.
Qed.
(** ** The fetcher, one attempt at a time *)

Section Fetcher.
Context {W : World}.

Lemma requests_of_app t1 t2 :
  requests_of (t1 ++ t2) = requests_of t1 ++ requests_of t2.
Proof. apply omap_app. Qed.

Lemma refreshes_of_app t1 t2 :
  refreshes_of (t1 ++ t2) = refreshes_of t1 ++ refreshes_of t2.
Proof. apply omap_app. Qed.

Lemma headers_getitem_eq k st :
  headers_getitem k st =
  match headers st !! k with
  | Some v => (Returned v, st)
  | None => (Raised (KeyError k), st)
  end.
Proof.
  unfold headers_getitem, mbind, M_bind, read_headers.
  destruct (headers st !! k); reflexivity.
Qed.

(** Requesting → Success, on the first attempt or on the retry. *)
Lemma request_next_success depth path is_retry st r d :
  server (requests_of (trace st))
    {| url := create_url path; req_headers := headers st |} = Answer r ->
  status_ok r = true ->
  json_body r = Some (JObj d) ->
  request_next_rec (S depth) path is_retry st =
  (Returned r,
   after (after (after st (Sent {| url := create_url path; req_headers := headers st |}))
            (Logged (GetLine (create_url path) (py_or (dict_get "secret" d) (JStr "")))))
     (Logged (ResponseText (text r)))).
Proof.
  intros Hserver Hok Hbody. simpl request_next_rec.
  unfold mbind, M_bind, read_headers, requests_get, response_json.
  rewrite Hserver, Hbody, Hok. reflexivity.
Qed.

(** Requesting → MalformedFailure, when a credential is there for the
    error report. *)
Lemma request_next_malformed depth path st r d token :
  server (requests_of (trace st))
    {| url := create_url path; req_headers := headers st |} = Answer r ->
  status_ok r = false ->
  json_body r = Some (JObj d) ->
  falsy_get "error" d = true ->
  headers st !! "Session" = Some token ->
  request_next_rec (S depth) path false st =
  (Raised MalformedErrorResponse,
   after (after st (Sent {| url := create_url path; req_headers := headers st |}))
     (Logged (ResponseError error_missing_message (Some token)
                (create_url path) (JObj d)))).
Proof.
  intros Hserver Hok Hbody Herr Htok. simpl request_next_rec.
  unfold mbind, M_bind, read_headers, requests_get, response_json.
  rewrite Hserver, Hbody, Hok. cbn.
  unfold falsy_get in Herr.
  destruct (dict_get "error" d) as [v|].
  - rewrite Herr. cbn. rewrite headers_getitem_eq. cbn. rewrite Htok. reflexivity.
  - cbn. rewrite headers_getitem_eq. cbn. rewrite Htok. reflexivity.
Qed.

(** The same failure before any refresh: the error report asks for
    [headers["Session"]], which is not there. *)
Lemma request_next_malformed_no_credential depth path st r d :
  server (requests_of (trace st))
    {| url := create_url path; req_headers := headers st |} = Answer r ->
  status_ok r = false ->
  json_body r = Some (JObj d) ->
  falsy_get "error" d = true ->
  headers st !! "Session" = None ->
  request_next_rec (S depth) path false st =
  (Raised (KeyError "Session"),
   after st (Sent {| url := create_url path; req_headers := headers st |})).
Proof.
  intros Hserver Hok Hbody Herr Htok. simpl request_next_rec.
  unfold mbind, M_bind, read_headers, requests_get, response_json.
  rewrite Hserver, Hbody, Hok. cbn.
  unfold falsy_get in Herr.
  destruct (dict_get "error" d) as [v|].
  - rewrite Herr. cbn. rewrite headers_getitem_eq. cbn. rewrite Htok. reflexivity.
  - cbn. rewrite headers_getitem_eq. cbn. rewrite Htok. reflexivity.
Qed.

(** Requesting → AuthFailure → RefreshingCredential → Retrying. *)
Lemma request_next_refresh depth path st r d err :
  server (requests_of (trace st))
    {| url := create_url path; req_headers := headers st |} = Answer r ->
  status_ok r = false ->
  json_body r = Some (JObj d) ->
  dict_get "error" d = Some err ->
  truthy err = true ->
  request_next_rec (S depth) path false st =
  let req1 := {| url := create_url path; req_headers := headers st |} in
  let req_s := {| url := create_url "get-session"; req_headers := ∅ |} in
  match server (requests_of (trace st) ++ [req1]) req_s with
  | NoAnswer reason =>
      (Raised (RequestException reason), after (after st (Sent req1)) (Sent req_s))
  | Answer fresh =>
      request_next_rec depth path true
        {| headers := <["Session" := text fresh]> (headers st);
           trace := trace st ++ [Sent req1; Sent req_s;
                                 Logged (NewSessionToken (text fresh))] |}
  end.
Proof.
  intros Hserver Hok Hbody Herr Htruthy. simpl request_next_rec.
  unfold mbind, M_bind, read_headers, requests_get, response_json.
  rewrite Hserver, Hbody, Hok. cbn. rewrite Herr, Htruthy. cbn.
  rewrite requests_of_app. cbn.
  destruct (server (requests_of (trace st) ++ _) _) as [reason|fresh];
    [reflexivity|].
  cbn. rewrite headers_getitem_eq. cbn. rewrite lookup_insert_eq.
  unfold after. cbn. rewrite <- !app_assoc. reflexivity.
Qed.

(** Retrying → AuthFailure → Fatal. *)
Lemma request_next_retry_failed depth path st r body token :
  server (requests_of (trace st))
    {| url := create_url path; req_headers := headers st |} = Answer r ->
  status_ok r = false ->
  json_body r = Some body ->
  headers st !! "Session" = Some token ->
  request_next_rec (S depth) path true st =
  (Raised SessionRefreshFailure,
   after (after st (Sent {| url := create_url path; req_headers := headers st |}))
     (Logged (ResponseError refresh_failed_message (Some token)
                (create_url path) body))).
Proof.
  intros Hserver Hok Hbody Htok. simpl request_next_rec.
  unfold mbind, M_bind, read_headers, requests_get, response_json.
  rewrite Hserver, Hbody, Hok. cbn. rewrite headers_getitem_eq. cbn.
  rewrite Htok. reflexivity.
Qed.

(** *** Two nested calls are enough *)

Lemma settled_ret {A} (a : A) : settled (mret a).
Proof. intros st. discriminate. Qed.

Lemma settled_raise {A} (e : exn) : settled (@raise A e).
Proof. intros st. discriminate. Qed.

Lemma settled_bind {A B} (m : M A) (f : A -> M B) :
  settled m -> (forall a, settled (f a)) -> settled (m ≫= f).
Proof.
  intros Hm Hf st. unfold mbind, M_bind.
  specialize (Hm st). destruct (m st) as [[a|e|] st1]; simpl in *.
  - apply Hf.
  - discriminate.
  - congruence.
Qed.

Lemma settled_log l : settled (log l).
Proof. intros st. discriminate. Qed.

Lemma settled_requests_get u h : settled (requests_get u h).
Proof. intros st. unfold requests_get. destruct (server _ _); discriminate. Qed.

Lemma settled_headers_getitem k : settled (headers_getitem k).
Proof.
  intros st. rewrite headers_getitem_eq. destruct (headers st !! k); discriminate.
Qed.

Lemma settled_response_json r : settled (response_json r).
Proof.
  unfold response_json. destruct (json_body r);
    [apply settled_ret | apply settled_raise].
Qed.

Lemma settled_json_get k v : settled (json_get k v).
Proof. destruct v; simpl; try apply settled_raise. apply settled_ret. Qed.

Lemma settled_report message path body (e : exn) :
  settled (session ← headers_getitem "Session";
           log_response_error message (Some session) (create_url path) body;;
           @raise response e).
Proof.
  apply settled_bind; [apply settled_headers_getitem|]. intros session.
  apply settled_bind; [apply settled_log|]. intros _. apply settled_raise.
Qed.

Lemma settled_logged_return path secret (resp : response) :
  settled (log (GetLine (create_url path) (py_or secret (JStr "")));;
           log (ResponseText (text resp));;
           mret resp).
Proof.
  apply settled_bind; [apply settled_log|]. intros _.
  apply settled_bind; [apply settled_log|]. intros _. apply settled_ret.
Qed.

Lemma request_next_retry_settled depth path :
  settled (request_next_rec (S depth) path true).
Proof.
  simpl request_next_rec. apply settled_bind; [intros st; discriminate|].
  intros h. apply settled_bind; [apply settled_requests_get|]. intros resp.
  apply settled_bind; [apply settled_response_json|]. intros body.
  destruct (negb (status_ok resp)).
  - apply settled_report.
  - apply settled_bind; [apply settled_json_get|]. intros secret.
    apply settled_logged_return.
Qed.

(** [request_next] never stops for want of depth. *)
Lemma request_next_settled path : settled (request_next path).
Proof.
  unfold request_next. simpl request_next_rec.
  apply settled_bind; [intros st; discriminate|].
  intros h. apply settled_bind; [apply settled_requests_get|]. intros resp.
  apply settled_bind; [apply settled_response_json|]. intros body.
  destruct (negb (status_ok resp)).
  - apply settled_bind; [apply settled_json_get|]. intros err.
    destruct (negb _).
    + apply settled_report.
    + apply settled_bind; [apply settled_requests_get|]. intros fresh.
      apply settled_bind; [intros st; discriminate|]. intros _.
      apply settled_bind; [apply settled_headers_getitem|]. intros session.
      apply settled_bind; [apply settled_log|]. intros _.
      apply (request_next_retry_settled 0).
  - apply settled_bind; [apply settled_json_get|]. intros secret.
    apply settled_logged_return.
Qed.

End Fetcher.

(** ** The example servers *)

Lemma table_world_fetches table path r d :
  table_server table []
    {| url := example_urljoin example_base (example_urljoin example_base path);
       req_headers := ∅ |} = Answer r ->
  status_ok r = true ->
  json_body r = Some (JObj d) ->
  @fetches (table_world table) path d.
Proof.
  intros Hserver Hok Hbody st. eexists. eexists. split; [|exact Hbody].
  unfold request_next. apply request_next_success with (d := d); auto.
Qed.

Lemma example_tree_served : @serves (table_world example_tree_table) "start" example_tree.
Proof.
  simpl. repeat split; try discriminate.
  - eexists. split; [eapply table_world_fetches; reflexivity|]. split; reflexivity.
  - eexists. split; [eapply table_world_fetches; reflexivity|]. reflexivity.
  - eexists. split; [eapply table_world_fetches; reflexivity|]. split; reflexivity.
  - eexists. split; [eapply table_world_fetches; reflexivity|]. reflexivity.
Qed.

Lemma get_next_secret_depth_first_witness :
  (exists st',
     @get_next_secret (table_world example_tree_table) 3 "start" init_state =
     (Returned [JStr "X"; JStr "Y"], st')) /\
  length [JStr "X"; JStr "Y"] = 2.
Proof.
  apply (@get_next_secret_depth_first (table_world example_tree_table)
           example_tree "start" 3 init_state).
  - exact example_tree_served.
  - simpl. lia.
Defined.

(** ** Leaf, branch or malformed *)

Lemma append_empty (s : string) : s +:+ "" = s.
Proof.
  induction s as [|c s IH]; [reflexivity|].
  change (String c (s +:+ "") = String c s). rewrite IH. reflexivity.
Qed.

Lemma join_no_separator (l : list string) :
  join "" l = fold_right String.append "" l.
Proof.
  induction l as [|s [|s' l] IH]; [reflexivity| |].
  - simpl. symmetry. apply append_empty.
  - change (join "" (s :: s' :: l)) with (s +:+ "" +:+ join "" (s' :: l)).
    rewrite IH. reflexivity.
Qed.

Lemma join_skips_empty (before later : list string) :
  join "" (before ++ "" :: later) = join "" (before ++ later).
Proof.
  rewrite !join_no_separator, !fold_right_app. reflexivity.
Qed.




(** C9. A node that is fetched and whose normalised response has both a
    [secret] and a non-empty [next] list is a leaf: the traversal returns
    its secret as its only element and sends no request beyond the fetch
    of the node itself. *)
Theorem secret_wins_over_next `{W : World} (fuel : nat) (path : string)
    (st st1 : state) (r : response) (d : dict) (secret child : json)
    (children : list json) :
  request_next (create_url path) st = (Returned r, st1) ->
  json_body r = Some (JObj d) ->
  dict_get "secret" (normalize_keys d) = Some secret ->
  dict_get "next" (normalize_keys d) = Some (JArr (child :: children)) ->
  get_next_secret (S fuel) path st =
    (Returned [secret],
     after st1 (Logged (SecretFound secret (create_url path)))) /\
  requests_of (trace (get_next_secret (S fuel) path st).2) =
    requests_of (trace st1).
Proof.
  intros Hfetch Hbody Hsecret _.
  rewrite (get_next_secret_fetched _ _ _ _ _ _ Hfetch Hbody), Hsecret.
  split; [reflexivity|].
  unfold after. cbn [snd trace]. rewrite requests_of_app. apply app_nil_r.
Qed.

Lemma secret_wins_over_next_witness :
  fst (@get_next_secret (table_world odd_nodes_table) 2 "both" init_state)
    = Returned [JStr "S"] /\
  length (requests_of (trace
    (@get_next_secret (table_world odd_nodes_table) 2 "both" init_state).2)) = 1.
Proof.
  destruct (@secret_wins_over_next (table_world odd_nodes_table)
              1 "both" init_state _ _ _ (JStr "S") (JStr "absent") []
              eq_refl eq_refl eq_refl eq_refl) as [H1 H2].
  split.
  - rewrite H1. reflexivity.
  - rewrite H2. reflexivity.
Defined.

(** C10. A leaf is told by the presence of the [secret] key, a branch by
    the truth of the [next] value: a node whose [secret] is the empty
    string is a leaf that yields the empty string, which adds nothing to
    the joined output; a node without [secret] whose [next] is there but
    falsy ([null], [false], [0], an empty string, list or dict) raises
    [MissingNextKey], as a node without [next] does. *)
Theorem presence_for_secret_truth_for_next `{W : World} (fuel : nat)
    (path : string) (st st1 : state) (r : response) (d : dict) :
  request_next (create_url path) st = (Returned r, st1) ->
  json_body r = Some (JObj d) ->
  (dict_get "secret" (normalize_keys d) = Some (JStr "") ->
   get_next_secret (S fuel) path st =
   (Returned [JStr ""],
    after st1 (Logged (SecretFound (JStr "") (create_url path))))) /\
  (forall before later, join "" (before ++ "" :: later) = join "" (before ++ later)) /\
  (dict_get "secret" (normalize_keys d) = None ->
   forall v, dict_get "next" (normalize_keys d) = Some v -> truthy v = false ->
   get_next_secret (S fuel) path st =
   (Raised MissingNextKey,
    after st1 (Logged (ResponseError missing_next_message
                         (headers st1 !! "Session") (create_url path)
                         (JObj (normalize_keys d)))))) /\
  (dict_get "secret" (normalize_keys d) = None ->
   dict_get "next" (normalize_keys d) = None ->
   get_next_secret (S fuel) path st =
   (Raised MissingNextKey,
    after st1 (Logged (ResponseError missing_next_message
                         (headers st1 !! "Session") (create_url path)
                         (JObj (normalize_keys d)))))).
Proof.
  intros Hfetch Hbody.
  rewrite (get_next_secret_fetched _ _ _ _ _ _ Hfetch Hbody).
  repeat split.
  - intros ->. reflexivity.
  - apply join_skips_empty.
  - intros -> v Hnext Hv. unfold falsy_get. rewrite Hnext, Hv. reflexivity.
  - intros -> Hnext. unfold falsy_get. rewrite Hnext. reflexivity.
Qed.

Lemma presence_for_secret_truth_for_next_witness :
  fst (@get_next_secret (table_world odd_nodes_table) 1 "blank" init_state)
    = Returned [JStr ""] /\
  fst (@get_next_secret (table_world odd_nodes_table) 1 "null" init_state)
    = Raised MissingNextKey.
Proof.
  split.
  - destruct (@presence_for_secret_truth_for_next (table_world odd_nodes_table)
                0 "blank" init_state _ _ _ eq_refl eq_refl) as (H & _).
    rewrite (H eq_refl). reflexivity.
  - destruct (@presence_for_secret_truth_for_next (table_world odd_nodes_table)
                0 "null" init_state _ _ _ eq_refl eq_refl) as (_ & _ & H & _).
    rewrite (H eq_refl JNull eq_refl eq_refl). reflexivity.
Defined.

(** ** Errors abort the run *)

Section Abort.
Context {W : World}.

(** An error in a child ends the loop over the children there and then:
    what the children before it have yielded is dropped, the children
    after it are not visited. *)
Lemma for_each_raises (visit : string -> M (list json)) child later e st4 :
  forall before found st st3,
  for_each visit before st = (Returned found, st3) ->
  visit child st3 = (Raised e, st4) ->
  for_each visit (before ++ child :: later) st = (Raised e, st4).
Proof.
  induction before as [|p before IH]; intros found st st3 Hbefore Hchild.
  - injection Hbefore as _ <-. simpl. unfold mbind, M_bind.
    rewrite Hchild. reflexivity.
  - simpl in *. unfold mbind, M_bind in *.
    destruct (visit p st) as [[xs| |] st1]; try discriminate.
    destruct (for_each visit before st1) as [[ys| |] st2] eqn:Hrest;
      try discriminate.
    injection Hbefore as _ <-.
    rewrite (IH _ _ _ Hrest Hchild). reflexivity.
Qed.

Lemma visited_error_propagates fuel path st fuel' path' st' e stE :
  visits fuel path st fuel' path' st' ->
  get_next_secret fuel' path' st' = (Raised e, stE) ->
  get_next_secret fuel path st = (Raised e, stE).
Proof.
  induction 1 as [|fuel path st r st1 d next_list st2 before child later
                   found st3 fuel' path' st' Hfetch Hbody Hsecret Hnext
                   Htruthy Hiter Hlog Hbefore Hvisits IH]; intros Hraise.
  - exact Hraise.
  - rewrite (get_next_secret_fetched _ _ _ _ _ _ Hfetch Hbody), Hsecret.
    unfold falsy_get, dict_getitem. rewrite Hnext, Htruthy. cbn [negb].
    unfold mbind at 1 2, M_bind at 1 2. cbn [mret M_ret].
    rewrite Hlog, Hiter.
    apply (for_each_raises _ _ _ _ _ _ _ _ _ Hbefore). auto.
Qed.

End Abort.

(** C8. When a node that the traversal visits raises an error, the error
    reaches [run] at once: the state in which [run] ends is the state in
    which the error was raised (nothing is requested or logged after it),
    and the process ends through [parser.error] with that error and status
    2; what the subtrees traversed before have yielded is not part of
    what the process reports. *)
Theorem error_aborts_run `{W : World} (fuel : nat) (st : state) (fuel' : nat)
    (path' : string) (st' : state) (e : exn) (stE : state) :
  visits fuel "start" st fuel' path' st' ->
  get_next_secret fuel' path' st' = (Raised e, stE) ->
  run fuel st = (Returned (ParserError e), stE) /\
  exit_status (ParserError e) = 2%Z.
Proof.
  intros Hvisits Hraise. split; [|reflexivity].
  unfold run, try_except, mbind, M_bind.
  rewrite (visited_error_propagates _ _ _ _ _ _ _ _ Hvisits Hraise).
  reflexivity.
Qed.

Lemma error_aborts_run_witness :
  fst (@run (table_world broken_tree_table) 2 init_state)
    = Returned (ParserError MissingNextKey) /\
  map url (requests_of (trace (@run (table_world broken_tree_table) 2 init_state).2))
    = [ "http://localhost:5000/start"; "http://localhost:5000/a";
        "http://localhost:5000/b" ].
Proof.
  edestruct (@error_aborts_run (table_world broken_tree_table)
               2 init_state 1 "b") as [Hrun _].
  - eapply visits_child with (before := ["a"]) (child := "b") (later := ["c"]);
      [reflexivity | reflexivity | reflexivity | reflexivity | reflexivity
      | reflexivity | reflexivity | reflexivity | apply visits_here].
  - vm_compute. reflexivity.
  - rewrite Hrun. split; reflexivity.
Defined.

(** ** Refresh and retry *)

Section Retry.
Context {W : World}.

(** The second attempt sends one request and never refreshes. *)
Lemma request_next_retry_once path st token :
  headers st !! "Session" = Some token ->
  let req := {| url := create_url path; req_headers := headers st |} in
  exists out rest,
    request_next_rec 1 path true st =
      (out, {| headers := headers st; trace := trace st ++ Sent req :: rest |}) /\
    requests_of rest = [] /\
    refreshes_of rest = [] /\
    (forall r2 body,
       server (requests_of (trace st)) req = Answer r2 ->
       status_ok r2 = false ->
       json_body r2 = Some body ->
       out = Raised SessionRefreshFailure).
Proof.
  intros Htok req.
  destruct (server (requests_of (trace st)) req) as [reason|r2] eqn:Hserver.
  - exists (Raised (RequestException reason)), [].
    split; [|repeat split; intros; congruence].
    simpl request_next_rec.
    unfold mbind, M_bind, read_headers, requests_get. fold req.
    rewrite Hserver. reflexivity.
  - destruct (json_body r2) as [body|] eqn:Hbody.
    + destruct (status_ok r2) eqn:Hok.
      * destruct body as [| | | | |d];
          try (exists (Raised (AttributeError "get")), [];
               split; [|repeat split; intros; congruence];
               simpl request_next_rec;
               unfold mbind, M_bind, read_headers, requests_get, response_json;
               fold req; rewrite Hserver, Hbody, Hok; reflexivity).
        exists (Returned r2),
          [Logged (GetLine (create_url path) (py_or (dict_get "secret" d) (JStr "")));
           Logged (ResponseText (text r2))].
        split; [|repeat split; intros; congruence].
        rewrite (request_next_success _ _ _ _ _ _ Hserver Hok Hbody).
        unfold after. cbn. rewrite <- !app_assoc. reflexivity.
      * exists (Raised SessionRefreshFailure),
          [Logged (ResponseError refresh_failed_message (Some token)
                     (create_url path) body)].
        split; [|repeat split; intros; reflexivity].
        rewrite (request_next_retry_failed _ _ _ _ _ _ Hserver Hok Hbody Htok).
        unfold after. cbn. rewrite <- !app_assoc. reflexivity.
    + exists (Raised JSONDecodeError), [].
      split; [|repeat split; intros; congruence].
      simpl request_next_rec.
      unfold mbind, M_bind, read_headers, requests_get, response_json.
      fold req. rewrite Hserver, Hbody. reflexivity.
Qed.

End Retry.

(** C2 (amended).  When the first attempt comes back with a failure status
    and a JSON object whose [error] is truthy, the fetcher sends exactly
    one request to the session endpoint, without headers.  When that
    request is not answered, the fetch raises the transport error: nothing
    is stored and the node is not requested again.  When it is answered,
    the text of the answer is stored as the [Session] header and the same
    URL is requested exactly once more, with the new header; nothing else
    is requested and no other refresh happens.  If the second attempt
    comes back with a failure status too (and a JSON body), the fetch logs
    the report [Unable to refresh "Session" token.] and fails there.
    (Which exception the interpreter makes of the [raise] is left open.) *)
Theorem truthy_error_refreshes_once `{W : World} (path : string) (st : state)
    (r1 : response) (d : dict) (err : json) :
  let hist := requests_of (trace st) in
  let req1 := {| url := create_url path; req_headers := headers st |} in
  let req_s := {| url := create_url "get-session"; req_headers := ∅ |} in
  server hist req1 = Answer r1 ->
  status_ok r1 = false ->
  json_body r1 = Some (JObj d) ->
  dict_get "error" d = Some err ->
  truthy err = true ->
  exists out st',
    request_next path st = (out, st') /\
    match server (hist ++ [req1]) req_s with
    | NoAnswer reason =>
        out = Raised (RequestException reason) /\
        st' = {| headers := headers st;
                 trace := trace st ++ [Sent req1; Sent req_s] |}
    | Answer fresh =>
        let h' := <["Session" := text fresh]> (headers st) in
        let req2 := {| url := create_url path; req_headers := h' |} in
        exists rest,
          st' = {| headers := h';
                   trace := trace st ++
                     [Sent req1; Sent req_s;
                      Logged (NewSessionToken (text fresh)); Sent req2] ++
                     rest |} /\
          requests_of rest = [] /\
          refreshes_of rest = [] /\
          (forall r2 body,
             server (hist ++ [req1; req_s]) req2 = Answer r2 ->
             status_ok r2 = false ->
             json_body r2 = Some body ->
             (exists e, out = Raised e) /\
             rest = [Logged (ResponseError refresh_failed_message
                               (Some (text fresh)) (create_url path) body)])
    end.
Proof.
  intros hist req1 req_s Hserver Hok Hbody Herr Htruthy.
  unfold request_next.
  rewrite (request_next_refresh _ _ _ _ _ _ Hserver Hok Hbody Herr Htruthy).
  cbv zeta. fold hist req1 req_s.
  destruct (server (hist ++ [req1]) req_s) as [reason|fresh].
  { eexists. eexists. split; [reflexivity|]. split; [reflexivity|].
    unfold after. cbn. rewrite <- !app_assoc. reflexivity. }
  set (st2 := {| headers := <["Session" := text fresh]> (headers st);
                 trace := trace st ++ [Sent req1; Sent req_s;
                                       Logged (NewSessionToken (text fresh))] |}).
  assert (Htok : headers st2 !! "Session" = Some (text fresh))
    by apply lookup_insert_eq.
  destruct (request_next_retry_once path st2 (text fresh) Htok)
    as (out & rest & Heq & Hreqs & Hrefs & Hfail).
  eexists. eexists. split; [exact Heq|].
  exists rest. split; [|split; [exact Hreqs|split; [exact Hrefs|]]].
  - unfold st2. cbn [headers trace]. rewrite <- !app_assoc. reflexivity.
  - intros r2 body H2 Hok2 Hbody2.
    assert (H2' : server (requests_of (trace st2))
                    {| url := create_url path; req_headers := headers st2 |} =
                  Answer r2).
    { unfold st2. cbn [headers trace]. rewrite requests_of_app. exact H2. }
    split.
    + exists SessionRefreshFailure. apply (Hfail r2 body H2' Hok2 Hbody2).
    + rewrite (request_next_retry_failed _ _ _ _ _ _ H2' Hok2 Hbody2 Htok) in Heq.
      injection Heq as _ Htrace. unfold after in Htrace. cbn in Htrace.
      rewrite <- app_assoc in Htrace. apply app_inv_head in Htrace.
      injection Htrace as <-. reflexivity.
Qed.

Lemma truthy_error_refreshes_once_witness :
  (exists e,
     fst (@request_next always_failing_world
            (@create_url always_failing_world "start") init_state) = Raised e) /\
  refreshes_of (trace
    (@request_next always_failing_world
       (@create_url always_failing_world "start") init_state).2) = ["new"] /\
  map url (requests_of (trace
    (@request_next always_failing_world
       (@create_url always_failing_world "start") init_state).2))
    = [ "http://localhost:5000/start"; "http://localhost:5000/get-session";
        "http://localhost:5000/start" ] /\
  (exists e,
     fst (@request_next no_session_world
            (@create_url no_session_world "start") init_state) = Raised e) /\
  map url (requests_of (trace
    (@request_next no_session_world
       (@create_url no_session_world "start") init_state).2))
    = [ "http://localhost:5000/start"; "http://localhost:5000/get-session" ].
Proof.
  destruct (@truthy_error_refreshes_once always_failing_world
              (@create_url always_failing_world "start") init_state
              (failed [("error", JStr "session expired")])
              [("error", JStr "session expired")] (JStr "session expired")
              eq_refl eq_refl eq_refl eq_refl eq_refl)
    as (out & st' & Heq & rest & Hst & Hreqs & Hrefs & Hfail).
  destruct (Hfail (failed [("error", JStr "session expired")])
              (JObj [("error", JStr "session expired")])
              eq_refl eq_refl eq_refl) as [[e He] Hrest].
  destruct (@truthy_error_refreshes_once no_session_world
              (@create_url no_session_world "start") init_state
              (failed [("error", JStr "session expired")])
              [("error", JStr "session expired")] (JStr "session expired")
              eq_refl eq_refl eq_refl eq_refl eq_refl)
    as (out2 & st2 & Heq2 & Hout2 & Hst2).
  rewrite Heq, Heq2. cbn [fst snd]. subst.
  split; [exists e; reflexivity|].
  split; [reflexivity|]. split; [reflexivity|].
  split; [eexists; reflexivity | reflexivity].
Defined.

(** C2, as stated, fails: an [error] field that is there but empty is not
    refreshed. *)
Lemma empty_error_is_not_refreshed :
  dict_mem "error" [("error", JStr "")] = true /\
  @request_next (table_world empty_error_table) (@create_url (table_world empty_error_table) "start") cred_state =
    (Raised MalformedErrorResponse,
     {| headers := {["Session" := "old"]};
        trace := [ Sent {| url := "http://localhost:5000/start";
                           req_headers := {["Session" := "old"]} |};
                   Logged (ResponseError error_missing_message (Some "old")
                             "http://localhost:5000/start"
                             (JObj [("error", JStr "")])) ] |}).
Proof. split; reflexivity. Qed.

(** C4: the failing input.  Before any refresh, a failure without [error]
    ends in [KeyError] on [headers["Session"]], which the error report
    evaluates, and not in [MalformedErrorResponse]; no refresh and no
    retry happen, the [headers] stay as they were. *)
Theorem bare_failure_before_refresh_raises_KeyError :
  @request_next (table_world bare_failure_table) (@create_url (table_world bare_failure_table) "start") init_state =
    (Raised (KeyError "Session"),
     {| headers := ∅;
        trace := [ Sent {| url := "http://localhost:5000/start";
                           req_headers := ∅ |} ] |}).
Proof. reflexivity. Qed.

(** C5, as stated, fails: the fetcher looks for [error] in the body as it
    came, so an [Error] key does not make the failure refreshable. *)
Lemma capital_error_is_not_refreshed :
  dict_mem "error" (normalize_keys [("Error", JStr "session expired")]) = true /\
  @request_next (table_world capital_error_table) (@create_url (table_world capital_error_table) "start") cred_state =
    (Raised MalformedErrorResponse,
     {| headers := {["Session" := "old"]};
        trace := [ Sent {| url := "http://localhost:5000/start";
                           req_headers := {["Session" := "old"]} |};
                   Logged (ResponseError error_missing_message (Some "old")
                             "http://localhost:5000/start"
                             (JObj [("Error", JStr "session expired")])) ] |}).
Proof. split; reflexivity. Qed.

(** C5 (amended).  The traversal looks its fields up whatever their case:
    once a node is fetched, [get_next_secret] classifies it by the last
    key of the body that lower-cases to [secret], and failing that by the
    last key that lower-cases to [next]. *)
Theorem traversal_lookup_ignores_case `{W : World} (fuel : nat) (path : string)
    (st st1 : state) (r : response) (d : dict) :
  request_next (create_url path) st = (Returned r, st1) ->
  json_body r = Some (JObj d) ->
  let malformed :=
    (Raised MissingNextKey,
     after st1 (Logged (ResponseError missing_next_message
                          (headers st1 !! "Session") (create_url path)
                          (JObj (normalize_keys d))))) in
  get_next_secret (S fuel) path st =
  match last_with_lower "secret" d with
  | Some secret =>
      (Returned [secret], after st1 (Logged (SecretFound secret (create_url path))))
  | None =>
      match last_with_lower "next" d with
      | Some next_list =>
          if truthy next_list then
            (log_next_list next_list;;
             match iter_str next_list with
             | Some paths => for_each (get_next_secret fuel) paths
             | None => raise TypeError
             end) st1
          else malformed
      | None => malformed
      end
  end.
Proof.
  intros Hfetch Hbody malformed.
  rewrite (get_next_secret_fetched _ _ _ _ _ _ Hfetch Hbody).
  assert (Hget : forall k, dict_get k (normalize_keys d) = last_with_lower k d).
  { intros k. change (normalize_keys d) with (store_lower [] d).
    rewrite store_lower_get. destruct (last_with_lower k d); reflexivity. }
  unfold falsy_get, dict_getitem. rewrite !Hget.
  destruct (last_with_lower "secret" d); [reflexivity|].
  destruct (last_with_lower "next" d) as [next_list|]; [|reflexivity].
  destruct (truthy next_list); reflexivity.
Qed.

Lemma traversal_lookup_ignores_case_witness :
  fst (@get_next_secret (table_world example_tree_table) 1 "c" init_state)
    = Returned [JStr "Y"] /\
  fst (@get_next_secret (table_world example_tree_table) 2 "b" init_state)
    = Returned [JStr "Y"].
Proof.
  split.
  - rewrite (@traversal_lookup_ignores_case (table_world example_tree_table)
               0 "c" init_state _ _ _ eq_refl eq_refl).
    reflexivity.
  - rewrite (@traversal_lookup_ignores_case (table_world example_tree_table)
               1 "b" init_state _ _ _ eq_refl eq_refl).
    reflexivity.
Defined.

(** ** The credential *)

Lemma replay_app h t1 t2 : replay h (t1 ++ t2) = replay (replay h t1) t2.
Proof.
  revert h. induction t1 as [|[r|l] t1 IH]; intros h; simpl; auto.
  destruct l; auto.
Qed.

Lemma carries_app h t1 t2 :
  carries h (t1 ++ t2) <-> carries h t1 /\ carries (replay h t1) t2.
Proof.
  revert h. induction t1 as [|[r|l] t1 IH]; intros h; simpl.
  - tauto.
  - rewrite IH. tauto.
  - destruct l; apply IH.
Qed.

Lemma replay_last h t : replay h t = credential_after h t.
Proof.
  unfold credential_after. revert h.
  induction t as [|[r|l] t IH]; intros h; simpl; auto.
  destruct l; auto. rewrite IH.
  change (refreshes_of (Logged (NewSessionToken token) :: t))
    with (token :: refreshes_of t).
  rewrite last_cons.
  destruct (last (refreshes_of t)); [apply insert_insert_eq|reflexivity].
Qed.

Lemma carries_before_refresh h t :
  carries h t -> h !! "Session" = None ->
  Forall (fun r => req_headers r !! "Session" = None)
         (requests_of (before_refresh t)).
Proof.
  intros Hc Hh. induction t as [|[r|l] t IH]; simpl in Hc.
  - constructor.
  - destruct Hc as [Hr Hc].
    change (requests_of (before_refresh (Sent r :: t)))
      with (r :: requests_of (before_refresh t)).
    constructor; [|auto].
    destruct Hr as [-> | ->]; [exact Hh|apply lookup_empty].
  - destruct l; try (apply IH, Hc). constructor.
Qed.

Lemma follows_refl st : follows st st.
Proof. exists []. rewrite app_nil_r. simpl. auto. Qed.

Lemma follows_trans st1 st2 st3 : follows st1 st2 -> follows st2 st3 -> follows st1 st3.
Proof.
  intros (n1 & Ht1 & Hh1 & Hc1) (n2 & Ht2 & Hh2 & Hc2).
  exists (n1 ++ n2). repeat split.
  - rewrite Ht2, Ht1, app_assoc. reflexivity.
  - rewrite Hh2, Hh1, replay_app. reflexivity.
  - apply carries_app. rewrite <- Hh1. auto.
Qed.

Lemma follows_log st l :
  (forall token, l <> NewSessionToken token) ->
  follows st (after st (Logged l)).
Proof.
  intros Hl. exists [Logged l]. repeat split; destruct l; simpl; auto.
  all: exfalso; eapply Hl; reflexivity.
Qed.

Lemma follows_sent st r :
  req_headers r = headers st \/ req_headers r = ∅ ->
  follows st (after st (Sent r)).
Proof. intros Hr. exists [Sent r]. simpl. auto. Qed.

Lemma follows_refresh st token :
  follows st {| headers := <["Session" := token]> (headers st);
                trace := trace st ++ [Logged (NewSessionToken token)] |}.
Proof. exists [Logged (NewSessionToken token)]. simpl. auto. Qed.

Section Credential.
Context {W : World}.

Lemma preserves_ret {A} (a : A) : preserves (mret a).
Proof. intros st out st' H. injection H as _ <-. apply follows_refl. Qed.

Lemma preserves_raise {A} (e : exn) : preserves (@raise A e).
Proof. intros st out st' H. injection H as _ <-. apply follows_refl. Qed.

Lemma preserves_out_of_fuel {A} : preserves (@out_of_fuel A).
Proof. intros st out st' H. injection H as _ <-. apply follows_refl. Qed.

(** Sequencing, from one state. *)
Lemma follows_bind {A B} (m : M A) (f : A -> M B) st out st' :
  (forall o s, m st = (o, s) -> follows st s) ->
  (forall a, preserves (f a)) ->
  (m ≫= f) st = (out, st') -> follows st st'.
Proof.
  intros Hm Hf. unfold mbind, M_bind.
  destruct (m st) as [[a|e|] s] eqn:E; intros H.
  - eapply follows_trans; [apply (Hm _ _ eq_refl)|]. eapply Hf, H.
  - injection H as _ <-. apply (Hm _ _ eq_refl).
  - injection H as _ <-. apply (Hm _ _ eq_refl).
Qed.

Lemma preserves_bind {A B} (m : M A) (f : A -> M B) :
  preserves m -> (forall a, preserves (f a)) -> preserves (m ≫= f).
Proof.
  intros Hm Hf st out st'. apply follows_bind; [|exact Hf].
  intros o s. apply Hm.
Qed.

Lemma preserves_log l :
  (forall token, l <> NewSessionToken token) -> preserves (log l).
Proof.
  intros Hl st out st' H. injection H as _ <-. apply follows_log, Hl.
Qed.

Lemma preserves_read_headers : preserves read_headers.
Proof. intros st out st' H. injection H as _ <-. apply follows_refl. Qed.

Lemma preserves_headers_getitem k : preserves (headers_getitem k).
Proof.
  intros st out st'. rewrite headers_getitem_eq.
  destruct (headers st !! k); intros H; injection H as _ <-; apply follows_refl.
Qed.

Lemma preserves_response_json r : preserves (response_json r).
Proof.
  unfold response_json. destruct (json_body r);
    [apply preserves_ret | apply preserves_raise].
Qed.

Lemma preserves_json_get k v : preserves (json_get k v).
Proof. destruct v; simpl; try apply preserves_raise. apply preserves_ret. Qed.

Lemma preserves_items v : preserves (items v).
Proof. destruct v; simpl; try apply preserves_raise. apply preserves_ret. Qed.

Lemma preserves_dict_getitem k d : preserves (dict_getitem k d).
Proof.
  unfold dict_getitem. destruct (dict_get k d);
    [apply preserves_ret | apply preserves_raise].
Qed.

Lemma preserves_log_next_list v : preserves (log_next_list v).
Proof.
  unfold log_next_list. destruct (iter_str v); [|apply preserves_raise].
  apply preserves_log. discriminate.
Qed.

Lemma follows_requests_get u h st o s :
  h = headers st \/ h = ∅ ->
  requests_get u h st = (o, s) -> follows st s.
Proof.
  intros Hh. unfold requests_get.
  destruct (server _ _); intros H; injection H as _ <-; apply follows_sent, Hh.
Qed.

Lemma preserves_request_next_rec depth : forall path is_retry,
  preserves (request_next_rec depth path is_retry).
Proof.
  induction depth as [|depth IH]; intros path is_retry;
    [apply preserves_out_of_fuel|].
  intros st out st'. simpl request_next_rec.
  unfold mbind at 1, M_bind at 1, read_headers.
  apply follows_bind.
  { intros o s. apply follows_requests_get. auto. }
  intros resp. apply preserves_bind; [apply preserves_response_json|].
  intros body. destruct (negb (status_ok resp)).
  - destruct is_retry.
    + apply preserves_bind; [apply preserves_headers_getitem|]. intros session.
      apply preserves_bind; [apply preserves_log; discriminate|]. intros _.
      apply preserves_raise.
    + apply preserves_bind; [apply preserves_json_get|]. intros err.
      destruct (negb _).
      * apply preserves_bind; [apply preserves_headers_getitem|]. intros session.
        apply preserves_bind; [apply preserves_log; discriminate|]. intros _.
        apply preserves_raise.
      * apply preserves_bind.
        { intros s o s'. apply follows_requests_get. auto. }
        intros fresh s1 o s'.
        unfold mbind at 1, M_bind at 1, headers_setitem.
        unfold mbind at 1, M_bind at 1. rewrite headers_getitem_eq.
        cbn [headers]. rewrite lookup_insert_eq.
        unfold mbind at 1, M_bind at 1, log, emit, after. cbn [headers trace].
        intros H. eapply follows_trans; [apply follows_refresh|].
        eapply IH, H.
  - apply preserves_bind; [apply preserves_json_get|]. intros secret.
    apply preserves_bind; [apply preserves_log; discriminate|]. intros _.
    apply preserves_bind; [apply preserves_log; discriminate|]. intros _.
    apply preserves_ret.
Qed.

Lemma preserves_for_each (visit : string -> M (list json)) paths :
  (forall p, preserves (visit p)) -> preserves (for_each visit paths).
Proof.
  intros Hvisit. induction paths as [|p paths IH]; simpl.
  - apply preserves_ret.
  - apply preserves_bind; [apply Hvisit|]. intros found.
    apply preserves_bind; [apply IH|]. intros others. apply preserves_ret.
Qed.

Lemma preserves_get_next_secret fuel : forall path,
  preserves (get_next_secret fuel path).
Proof.
  induction fuel as [|fuel IH]; intros path; [apply preserves_out_of_fuel|].
  simpl get_next_secret.
  apply preserves_bind; [apply preserves_request_next_rec|]. intros resp.
  apply preserves_bind; [apply preserves_response_json|]. intros data.
  apply preserves_bind; [apply preserves_items|]. intros raw.
  destruct (dict_get "secret" (normalize_keys raw)) as [secret|].
  - apply preserves_bind; [apply preserves_log; discriminate|]. intros _.
    apply preserves_ret.
  - destruct (falsy_get "next" (normalize_keys raw)).
    + apply preserves_bind; [apply preserves_read_headers|]. intros h.
      apply preserves_bind; [apply preserves_log; discriminate|]. intros _.
      apply preserves_raise.
    + apply preserves_bind; [apply preserves_dict_getitem|]. intros next_list.
      apply preserves_bind; [apply preserves_log_next_list|]. intros _.
      destruct (iter_str next_list); [|apply preserves_raise].
      apply preserves_for_each, IH.
Qed.

End Credential.

(** C7 (amended).  Along a traversal that starts without a credential, the
    [headers] change at the refresh steps only (they end as the last
    refresh left them, or as they were when there was none), and no
    request sent before the first refresh carries a [Session] header. *)
Theorem credential_written_by_refresh_only `{W : World} (fuel : nat)
    (path : string) (st : state) (out : outcome (list json)) (st' : state) :
  headers st !! "Session" = None ->
  get_next_secret fuel path st = (out, st') ->
  exists new,
    trace st' = trace st ++ new /\
    headers st' = credential_after (headers st) new /\
    Forall (fun r => req_headers r !! "Session" = None)
           (requests_of (before_refresh new)).
Proof.
  intros Hnone Hrun.
  destruct (preserves_get_next_secret fuel path st out st' Hrun)
    as (new & Htrace & Hheaders & Hcarries).
  exists new. repeat split.
  - exact Htrace.
  - rewrite <- replay_last. exact Hheaders.
  - apply (carries_before_refresh _ _ Hcarries Hnone).
Qed.

Lemma credential_written_by_refresh_only_witness :
  (@get_next_secret guarded_leaf_world 1 "start" init_state).1 =
    Returned [JStr "Z"] /\
  exists new,
    trace (@get_next_secret guarded_leaf_world 1 "start" init_state).2 =
      trace init_state ++ new /\
    headers (@get_next_secret guarded_leaf_world 1 "start" init_state).2 =
      credential_after (headers init_state) new /\
    Forall (fun r => req_headers r !! "Session" = None)
           (requests_of (before_refresh new)).
Proof.
  split; [reflexivity|].
  apply (@credential_written_by_refresh_only guarded_leaf_world
           1 "start" init_state
           (@get_next_secret guarded_leaf_world 1 "start" init_state).1
           (@get_next_secret guarded_leaf_world 1 "start" init_state).2).
  - reflexivity.
  - reflexivity.
Defined.

(** C7, as stated, fails: the error report that [get_next_secret] writes
    for a malformed node holds [headers.get("Session")], so the
    credential is read outside the fetcher too. *)
Lemma credential_read_by_traversal :
  own_records (trace
    (@get_next_secret (table_world odd_nodes_table) 1 "absent" cred_state).2) =
    [ResponseError missing_next_message (Some "old")
       "http://localhost:5000/absent" (JObj [])] /\
  own_records (trace
    (@get_next_secret (table_world odd_nodes_table) 1 "absent" init_state).2) =
    [ResponseError missing_next_message None
       "http://localhost:5000/absent" (JObj [])].
Proof. split; reflexivity. Qed.

(** ** The end-to-end examples *)

Example run_example_tree :
  fst (@run (table_world example_tree_table) 3 init_state) =
  Returned (ParserExit 0 "XY").
Proof. reflexivity. Qed.

Example run_guarded_leaf :
  fst (@run guarded_leaf_world 1 init_state) = Returned (ParserExit 0 "Z") /\
  refreshes_of (trace (@run guarded_leaf_world 1 init_state).2) = ["tok"].
Proof. split; reflexivity. Qed.

(** * More of the program *)

(** ** The fetcher on answers that it does not expect *)

Section Unexpected.
Context {W : World}.

Lemma request_next_no_answer depth path is_retry st reason :
  server (requests_of (trace st))
    {| url := create_url path; req_headers := headers st |} = NoAnswer reason ->
  request_next_rec (S depth) path is_retry st =
  (Raised (RequestException reason),
   after st (Sent {| url := create_url path; req_headers := headers st |})).
Proof.
  intros Hserver. simpl request_next_rec.
  unfold mbind, M_bind, read_headers, requests_get.
  rewrite Hserver. reflexivity.
Qed.

Lemma request_next_unparsable depth path is_retry st r :
  server (requests_of (trace st))
    {| url := create_url path; req_headers := headers st |} = Answer r ->
  json_body r = None ->
  request_next_rec (S depth) path is_retry st =
  (Raised JSONDecodeError,
   after st (Sent {| url := create_url path; req_headers := headers st |})).
Proof.
  intros Hserver Hbody. simpl request_next_rec.
  unfold mbind, M_bind, read_headers, requests_get, response_json.
  rewrite Hserver, Hbody. reflexivity.
Qed.

Lemma request_next_not_object depth path st r body :
  server (requests_of (trace st))
    {| url := create_url path; req_headers := headers st |} = Answer r ->
  json_body r = Some body ->
  (forall d, body <> JObj d) ->
  request_next_rec (S depth) path false st =
  (Raised (AttributeError "get"),
   after st (Sent {| url := create_url path; req_headers := headers st |})).
Proof.
  intros Hserver Hbody Hnot. simpl request_next_rec.
  unfold mbind, M_bind, read_headers, requests_get, response_json.
  rewrite Hserver, Hbody.
  destruct body as [| | | | |d]; try (destruct (status_ok r); reflexivity).
  destruct (Hnot d eq_refl).
Qed.

(** X1. Whatever the server answers, one call of [request_next] ends (the
    two nested calls that the model allows are enough), sends three
    requests at most and refreshes the credential once at most; the
    [headers] end as the refresh, if any, left them. *)
Theorem request_next_at_most_one_refresh path st :
  exists out new,
    request_next path st =
      (out, {| headers := credential_after (headers st) new;
               trace := trace st ++ new |}) /\
    out <> OutOfFuel /\
    length (requests_of new) <= 3 /\
    length (refreshes_of new) <= 1.
Proof.
  set (req := {| url := create_url path; req_headers := headers st |}).
  assert (Hone : forall (out : outcome response) (logs : list log_record),
            Forall (fun l => forall token, l <> NewSessionToken token) logs ->
            out <> OutOfFuel ->
            request_next path st =
              (out, {| headers := headers st;
                       trace := trace st ++ Sent req :: map Logged logs |}) ->
            exists out new,
              request_next path st =
                (out, {| headers := credential_after (headers st) new;
                         trace := trace st ++ new |}) /\
              out <> OutOfFuel /\
              length (requests_of new) <= 3 /\
              length (refreshes_of new) <= 1).
  { intros out logs Hlogs Hout Heq.
    assert (Hreq : requests_of (map Logged logs) = []).
    { clear. induction logs; auto. }
    assert (Href : refreshes_of (map Logged logs) = []).
    { clear -Hlogs. induction Hlogs as [|l logs Hl _ IH]; [reflexivity|].
      destruct l; try exact IH. destruct (Hl token eq_refl). }
    exists out, (Sent req :: map Logged logs). split; [|split; [exact Hout|]].
    - rewrite Heq. unfold credential_after.
      change (refreshes_of (Sent req :: map Logged logs))
        with (refreshes_of (map Logged logs)).
      rewrite Href. reflexivity.
    - change (requests_of (Sent req :: map Logged logs))
        with (req :: requests_of (map Logged logs)).
      change (refreshes_of (Sent req :: map Logged logs))
        with (refreshes_of (map Logged logs)).
      rewrite Hreq, Href. simpl. lia. }
  unfold request_next in *.
  destruct (server (requests_of (trace st)) req) as [reason|r] eqn:Hserver.
  { apply (Hone (Raised (RequestException reason)) []);
      [constructor | discriminate |].
    apply request_next_no_answer, Hserver. }
  destruct (json_body r) as [body|] eqn:Hbody.
  2:{ apply (Hone (Raised JSONDecodeError) []); [constructor | discriminate |].
      apply request_next_unparsable with (r := r); assumption. }
  assert (Hobj : (exists d, body = JObj d) \/ (forall d, body <> JObj d)).
  { destruct body; try (right; discriminate). left. eauto. }
  destruct Hobj as [[d ->]|Hnot].
  2:{ apply (Hone (Raised (AttributeError "get")) []);
        [constructor | discriminate |].
      apply request_next_not_object with (r := r) (body := body); assumption. }
  destruct (status_ok r) eqn:Hok.
  { apply (Hone (Returned r)
             [GetLine (create_url path) (py_or (dict_get "secret" d) (JStr ""));
              ResponseText (text r)]);
      [repeat constructor; discriminate | discriminate |].
    rewrite (request_next_success _ _ _ _ _ _ Hserver Hok Hbody).
    unfold after. cbn. rewrite <- !app_assoc. reflexivity. }
  destruct (falsy_get "error" d) eqn:Herr.
  { destruct (headers st !! "Session") as [token|] eqn:Htok.
    - apply (Hone (Raised MalformedErrorResponse)
               [ResponseError error_missing_message (Some token)
                  (create_url path) (JObj d)]);
        [repeat constructor; discriminate | discriminate |].
      rewrite (request_next_malformed _ _ _ _ _ _ Hserver Hok Hbody Herr Htok).
      unfold after. cbn. rewrite <- !app_assoc. reflexivity.
    - apply (Hone (Raised (KeyError "Session")) []);
        [constructor | discriminate |].
      apply request_next_malformed_no_credential with (r := r) (d := d);
        assumption. }
  unfold falsy_get in Herr.
  destruct (dict_get "error" d) as [err|] eqn:Hget; [|discriminate].
  apply negb_false_iff in Herr.
  rewrite (request_next_refresh _ _ _ _ _ _ Hserver Hok Hbody Hget Herr).
  cbv zeta. fold req.
  set (req_s := {| url := create_url "get-session"; req_headers := ∅ |}).
  destruct (server (requests_of (trace st) ++ [req]) req_s) as [reason|fresh].
  { exists (Raised (RequestException reason)), [Sent req; Sent req_s].
    split; [|split; [discriminate|simpl; lia]].
    unfold after. cbn. rewrite <- !app_assoc. reflexivity. }
  set (st2 := {| headers := <["Session" := text fresh]> (headers st);
                 trace := trace st ++ [Sent req; Sent req_s;
                                       Logged (NewSessionToken (text fresh))] |}).
  pose proof (request_next_retry_settled 0 path st2) as Hsettled.
  destruct (request_next_retry_once path st2 (text fresh))
    as (out & rest & Heq & Hreqs & Hrefs & _).
  { apply lookup_insert_eq. }
  rewrite Heq in Hsettled. simpl in Hsettled.
  exists out,
    ([Sent req; Sent req_s; Logged (NewSessionToken (text fresh))] ++
     Sent {| url := create_url path; req_headers := headers st2 |} :: rest).
  split; [|split; [exact Hsettled|]].
  - rewrite Heq. unfold st2. cbn [headers trace]. f_equal. f_equal.
    + unfold credential_after. rewrite refreshes_of_app.
      change (refreshes_of (Sent _ :: rest)) with (refreshes_of rest).
      rewrite Hrefs. reflexivity.
    + rewrite <- !app_assoc. reflexivity.
  - rewrite requests_of_app, refreshes_of_app.
    change (refreshes_of (Sent ?r :: rest)) with (refreshes_of rest).
    change (requests_of (Sent ?r :: rest)) with (r :: requests_of rest).
    rewrite Hreqs, Hrefs. simpl. lia.
Qed.

End Unexpected.

(** X2. A body that [response.json()] cannot parse raises the decode error
    at once, on the first attempt and on the retry, whatever the status:
    a failure with such a body is not refreshed and the [error] test is
    never reached. *)
Theorem unparsable_body_raises_decode_error `{W : World} (depth : nat)
    (path : string) (is_retry : bool) (st : state) (r : response) :
  server (requests_of (trace st))
    {| url := create_url path; req_headers := headers st |} = Answer r ->
  json_body r = None ->
  request_next_rec (S depth) path is_retry st =
  (Raised JSONDecodeError,
   after st (Sent {| url := create_url path; req_headers := headers st |})).
Proof. apply request_next_unparsable. Qed.

Lemma unparsable_body_raises_decode_error_witness :
  @request_next (table_world html_failure_table)
    (@create_url (table_world html_failure_table) "start") init_state =
  (Raised JSONDecodeError,
   {| headers := ∅;
      trace := [ Sent {| url := "http://localhost:5000/start";
                         req_headers := ∅ |} ] |}).
Proof.
  apply (@unparsable_body_raises_decode_error (table_world html_failure_table)
           1 (@create_url (table_world html_failure_table) "start") false
           init_state
           {| status_ok := false; json_body := None; text := "<html>" |});
    reflexivity.
Defined.

(** X3. A body that parses to something other than a JSON object makes
    the first attempt raise [AttributeError] (the body has no [get]),
    whatever the status: no refresh, no retry, no log record. *)
Theorem non_object_body_raises_attribute_error `{W : World} (path : string)
    (st : state) (r : response) (body : json) :
  server (requests_of (trace st))
    {| url := create_url path; req_headers := headers st |} = Answer r ->
  json_body r = Some body ->
  (forall d, body <> JObj d) ->
  request_next path st =
  (Raised (AttributeError "get"),
   after st (Sent {| url := create_url path; req_headers := headers st |})).
Proof. apply request_next_not_object. Qed.

Lemma non_object_body_raises_attribute_error_witness :
  @request_next (table_world html_failure_table)
    (@create_url (table_world html_failure_table) "list") init_state =
  (Raised (AttributeError "get"),
   {| headers := ∅;
      trace := [ Sent {| url := "http://localhost:5000/list";
                         req_headers := ∅ |} ] |}).
Proof.
  apply (@non_object_body_raises_attribute_error
           (table_world html_failure_table)
           (@create_url (table_world html_failure_table) "list") init_state
           {| status_ok := false; json_body := Some (JArr []); text := "[]" |}
           (JArr []));
    [reflexivity | reflexivity | discriminate].
Defined.

(** X4. When the session endpoint gives no answer, the refresh stores
    nothing: the call raises the transport error after two requests, the
    [headers] are as before and the node is not requested again. *)
Theorem failed_refresh_leaves_credential `{W : World} (path : string)
    (st : state) (r : response) (d : dict) (err : json) (reason : string) :
  let req1 := {| url := create_url path; req_headers := headers st |} in
  let req_s := {| url := create_url "get-session"; req_headers := ∅ |} in
  server (requests_of (trace st)) req1 = Answer r ->
  status_ok r = false ->
  json_body r = Some (JObj d) ->
  dict_get "error" d = Some err ->
  truthy err = true ->
  server (requests_of (trace st) ++ [req1]) req_s = NoAnswer reason ->
  request_next path st =
  (Raised (RequestException reason),
   {| headers := headers st;
      trace := trace st ++ [Sent req1; Sent req_s] |}).
Proof.
  intros req1 req_s Hserver Hok Hbody Herr Htruthy Hdown.
  unfold request_next.
  rewrite (request_next_refresh _ _ _ _ _ _ Hserver Hok Hbody Herr Htruthy).
  cbv zeta. fold req1 req_s. rewrite Hdown.
  unfold after. cbn. rewrite <- !app_assoc. reflexivity.
Qed.

Lemma failed_refresh_leaves_credential_witness :
  @request_next no_session_world (@create_url no_session_world "start") cred_state =
  (Raised (RequestException "connection refused"),
   {| headers := {["Session" := "old"]};
      trace := [ Sent {| url := "http://localhost:5000/start";
                         req_headers := {["Session" := "old"]} |};
                 Sent {| url := "http://localhost:5000/get-session";
                         req_headers := ∅ |} ] |}).
Proof.
  apply (@failed_refresh_leaves_credential no_session_world
           (@create_url no_session_world "start") cred_state
           (failed [("error", JStr "session expired")])
           [("error", JStr "session expired")] (JStr "session expired")
           "connection refused");
    reflexivity.
Defined.

(** X5. When the first attempt asks for a refresh, the session endpoint
    answers and the second attempt succeeds, [request_next] returns the
    response of the second attempt; the new token is in the [headers]
    and was sent with the second attempt, and the log holds the new token
    and the two lines of a successful request. *)
Theorem refresh_then_success `{W : World} (path : string) (st : state)
    (r1 : response) (d1 : dict) (err : json) (fresh r2 : response) (d2 : dict) :
  let hist := requests_of (trace st) in
  let req1 := {| url := create_url path; req_headers := headers st |} in
  let req_s := {| url := create_url "get-session"; req_headers := ∅ |} in
  let h' := <["Session" := text fresh]> (headers st) in
  let req2 := {| url := create_url path; req_headers := h' |} in
  server hist req1 = Answer r1 ->
  status_ok r1 = false ->
  json_body r1 = Some (JObj d1) ->
  dict_get "error" d1 = Some err ->
  truthy err = true ->
  server (hist ++ [req1]) req_s = Answer fresh ->
  server (hist ++ [req1; req_s]) req2 = Answer r2 ->
  status_ok r2 = true ->
  json_body r2 = Some (JObj d2) ->
  request_next path st =
  (Returned r2,
   {| headers := h';
      trace := trace st ++
        [ Sent req1; Sent req_s; Logged (NewSessionToken (text fresh));
          Sent req2;
          Logged (GetLine (create_url path)
                    (py_or (dict_get "secret" d2) (JStr "")));
          Logged (ResponseText (text r2)) ] |}).
Proof.
  intros hist req1 req_s h' req2 H1 Hok1 Hbody1 Herr Htruthy Hfresh H2 Hok2 Hbody2.
  unfold request_next.
  rewrite (request_next_refresh _ _ _ _ _ _ H1 Hok1 Hbody1 Herr Htruthy).
  cbv zeta. fold hist req1 req_s. rewrite Hfresh.
  rewrite (request_next_success 0 path true _ r2 d2); [| |exact Hok2|exact Hbody2].
  - unfold after. cbn. rewrite <- !app_assoc. reflexivity.
  - cbn [headers trace]. rewrite requests_of_app. exact H2.
Qed.

Lemma refresh_then_success_witness :
  fst (@request_next guarded_leaf_world
         (@create_url guarded_leaf_world "start") init_state) =
    Returned (ok [("secret", JStr "Z")]) /\
  headers (@request_next guarded_leaf_world
             (@create_url guarded_leaf_world "start") init_state).2 =
    {["Session" := "tok"]}.
Proof.
  rewrite (@refresh_then_success guarded_leaf_world
             (@create_url guarded_leaf_world "start") init_state
             (failed [("error", JStr "session expired")])
             [("error", JStr "session expired")] (JStr "session expired")
             (plain "tok") (ok [("secret", JStr "Z")]) [("secret", JStr "Z")]
             eq_refl eq_refl eq_refl eq_refl eq_refl eq_refl eq_refl eq_refl
             eq_refl).
  split; reflexivity.
Defined.

(** ** [normalize_keys] without collisions *)

(** X6. [low] stands for [str.lower], whatever it does to the keys.  When
    no two keys of a dict fall together once lower-cased, [normalize_keys]
    lower-cases each key where it stands: no item is lost and the order of
    the items is kept. *)
Theorem normalize_keys_keeps_distinct_items (low : string -> string)
    (m : dict) :
  NoDup (map low (keys m)) ->
  normalize_keys_by low m = map (fun kv => (low kv.1, kv.2)) m.
Proof.
  intros Hnd. change (normalize_keys_by low m) with (store_by low [] m).
  rewrite store_by_distinct; auto.
Qed.

Lemma normalize_keys_keeps_distinct_items_witness :
  normalize_keys mixed_case_dict =
  [ ("secret", JStr "s"); ("next", JArr []); ("error", JNull) ].
Proof.
  change (normalize_keys mixed_case_dict)
    with (normalize_keys_by lower mixed_case_dict).
  rewrite (normalize_keys_keeps_distinct_items lower mixed_case_dict).
  - reflexivity.
  - apply (bool_decide_unpack _). vm_compute. exact I.
Defined.

(** ** [next] values of other types *)

(** X7. A [next] that is truthy but is not an iterable of strings (a list
    with an element that is not a string, a number, [true]) raises
    [TypeError] in [log_next_list]: no child is requested, not even those
    listed before the offending element, and nothing is logged. *)
Theorem next_with_non_string_raises `{W : World} (fuel : nat) (path : string)
    (st st1 : state) (r : response) (d : dict) (next_list : json) :
  request_next (create_url path) st = (Returned r, st1) ->
  json_body r = Some (JObj d) ->
  dict_get "secret" (normalize_keys d) = None ->
  dict_get "next" (normalize_keys d) = Some next_list ->
  truthy next_list = true ->
  iter_str next_list = None ->
  get_next_secret (S fuel) path st = (Raised TypeError, st1).
Proof.
  intros Hfetch Hbody Hsecret Hnext Htruthy Hiter.
  rewrite (get_next_secret_fetched _ _ _ _ _ _ Hfetch Hbody), Hsecret.
  unfold falsy_get, dict_getitem. rewrite Hnext, Htruthy. cbn [negb].
  unfold mbind, M_bind, mret, M_ret, log_next_list. rewrite Hiter.
  reflexivity.
Qed.

Lemma next_with_non_string_raises_witness :
  fst (@get_next_secret (table_world quirky_table) 2 "mixed" init_state) =
    Raised TypeError /\
  map url (requests_of (trace
    (@get_next_secret (table_world quirky_table) 2 "mixed" init_state).2)) =
    [ "http://localhost:5000/mixed" ].
Proof.
  rewrite (@next_with_non_string_raises (table_world quirky_table) 1 "mixed"
             init_state _ _ _ (JArr [JStr "a"; JNum 7])
             eq_refl eq_refl eq_refl eq_refl eq_refl eq_refl).
  split; reflexivity.
Defined.

(** X8. A [next] that is a non-empty string is walked character by
    character: each character is taken as the path of a child, in the
    order of the string. *)
Theorem string_next_is_walked_by_character `{W : World} (fuel : nat)
    (path : string) (st st1 : state) (r : response) (d : dict) (s : string) :
  request_next (create_url path) st = (Returned r, st1) ->
  json_body r = Some (JObj d) ->
  dict_get "secret" (normalize_keys d) = None ->
  dict_get "next" (normalize_keys d) = Some (JStr s) ->
  s <> "" ->
  let paths := map (fun c => String c EmptyString) (list_ascii_of_string s) in
  get_next_secret (S fuel) path st =
  for_each (get_next_secret fuel) paths
    (after st1 (Logged (NextList (join newline paths)))).
Proof.
  intros Hfetch Hbody Hsecret Hnext Hs paths.
  rewrite (get_next_secret_fetched _ _ _ _ _ _ Hfetch Hbody), Hsecret.
  unfold falsy_get, dict_getitem. rewrite Hnext.
  assert (Htruthy : truthy (JStr s) = true).
  { simpl. destruct (String.eqb_spec s ""); [contradiction|reflexivity]. }
  rewrite Htruthy. reflexivity.
Qed.

Lemma string_next_is_walked_by_character_witness :
  fst (@get_next_secret (table_world quirky_table) 2 "letters" init_state) =
    Returned [JStr "1"; JStr "2"].
Proof.
  rewrite (@string_next_is_walked_by_character (table_world quirky_table)
             1 "letters" init_state _ _ _ "ab"
             eq_refl eq_refl eq_refl eq_refl ltac:(discriminate)).
  reflexivity.
Defined.

(** ** Cycles *)

(** X9. There is no defence against cycles: when every path of a set
    leads to a branch whose first child is in the set again, the
    traversal from a path of the set goes deeper than any bound on the
    depth of the recursion.  (The interpreter ends such a run at its
    recursion limit, which the model leaves out.) *)
Theorem first_child_cycle_never_ends `{W : World} (cyclic : string -> Prop) :
  (forall p, cyclic p ->
     exists d q others,
       fetches p d /\
       dict_get "secret" (normalize_keys d) = None /\
       dict_get "next" (normalize_keys d) =
         Some (JArr (map JStr (q :: others))) /\
       cyclic q) ->
  forall fuel p st, cyclic p -> fst (get_next_secret fuel p st) = OutOfFuel.
Proof.
  intros Hcycle. induction fuel as [|fuel IH]; intros p st Hp; [reflexivity|].
  destruct (Hcycle p Hp) as (d & q & others & Hfetch & Hsecret & Hnext & Hq).
  destruct (Hfetch st) as (r & st1 & Hr & Hbody).
  rewrite (get_next_secret_fetched _ _ _ _ _ _ Hr Hbody), Hsecret.
  unfold falsy_get, dict_getitem. rewrite Hnext. cbn [truthy map negb].
  unfold mbind at 1 2, M_bind at 1 2, mret, M_ret, log_next_list.
  change (iter_str (JArr (JStr q :: map JStr others)))
    with (iter_str (JArr (map JStr (q :: others)))).
  assert (Hiter : iter_str (JArr (map JStr (q :: others))) = Some (q :: others)).
  { apply mapM_as_str_JStr. }
  rewrite Hiter. cbn [log emit].
  cbn [for_each]. unfold mbind at 1, M_bind at 1.
  specialize (IH q (after st1 (Logged (NextList (join newline (q :: others))))) Hq).
  destruct (get_next_secret fuel q _) as [[found| |] st2]; try discriminate.
  reflexivity.
Qed.

Lemma first_child_cycle_never_ends_witness :
  fst (@get_next_secret (table_world loop_table) 50 "start" init_state) = OutOfFuel.
Proof.
  apply (@first_child_cycle_never_ends (table_world loop_table)
           (fun p => p = "start")); [|reflexivity].
  intros p ->. exists [("next", JArr [JStr "start"])], "start", [].
  split; [|repeat split; reflexivity].
  apply table_world_fetches with (r := ok [("next", JArr [JStr "start"])]);
    reflexivity.
Defined.

(** ** What [run] prints *)

Lemma mapM_as_str_None (l : list json) :
  Exists (fun v => as_str v = None) l -> mapM as_str l = None.
Proof.
  induction 1 as [v l Hv|v l _ IH]; cbn.
  - rewrite Hv. reflexivity.
  - rewrite IH. destruct (as_str v); reflexivity.
Qed.

(** X10. For a tree that the server serves and whose secrets are all
    strings, [run] ends through [parser.exit] with status 0 and the
    secrets of the leaves, depth first and from left to right, put
    together without a separator. *)
Theorem run_prints_joined_secrets `{W : World} (t : tree) (fuel : nat)
    (st : state) (strs : list string) :
  serves "start" t ->
  depth t < fuel ->
  secrets t = map JStr strs ->
  exists st',
    run fuel st =
    (Returned (ParserExit 0 (fold_right String.append "" strs)), st').
Proof.
  intros Hserves Hdepth Hstrs.
  destruct (traversal_returns_secrets fuel t "start" st Hserves Hdepth)
    as [st' Hrun].
  exists st'. unfold run, try_except, mbind, M_bind, join_secrets.
  rewrite Hrun, Hstrs, mapM_as_str_JStr, join_no_separator. reflexivity.
Qed.

Lemma run_prints_joined_secrets_witness :
  exists st',
    @run (table_world example_tree_table) 3 init_state =
    (Returned (ParserExit 0 "XY"), st').
Proof.
  apply (@run_prints_joined_secrets (table_world example_tree_table)
           example_tree 3 init_state ["X"; "Y"]).
  - exact example_tree_served.
  - simpl. lia.
  - reflexivity.
Defined.

(** X11. A secret that is not a string (a number, [null]) is yielded like
    any other, and the traversal goes on to the end; it is the final
    ["".join] that raises [TypeError], so that [run] ends through
    [parser.error] with status 2 and none of the secrets. *)
Theorem non_string_secret_fails_at_join `{W : World} (t : tree) (fuel : nat)
    (st : state) :
  serves "start" t ->
  depth t < fuel ->
  Exists (fun v => as_str v = None) (secrets t) ->
  exists st',
    get_next_secret fuel "start" st = (Returned (secrets t), st') /\
    run fuel st = (Returned (ParserError TypeError), st').
Proof.
  intros Hserves Hdepth Hbad.
  destruct (traversal_returns_secrets fuel t "start" st Hserves Hdepth)
    as [st' Hrun].
  exists st'. split; [exact Hrun|].
  unfold run, try_except, mbind, M_bind, join_secrets.
  rewrite Hrun, (mapM_as_str_None _ Hbad). reflexivity.
Qed.

Lemma non_string_secret_fails_at_join_witness :
  exists st',
    @get_next_secret (table_world quirky_table) 1 "start" init_state =
      (Returned [JNum 5], st') /\
    @run (table_world quirky_table) 1 init_state =
      (Returned (ParserError TypeError), st').
Proof.
  apply (@non_string_secret_fails_at_join (table_world quirky_table)
           (Leaf (JNum 5)) 1 init_state).
  - exists [("secret", JNum 5)]. split; [|reflexivity].
    apply table_world_fetches with (r := ok [("secret", JNum 5)]); reflexivity.
  - simpl. lia.
  - constructor. reflexivity.
Defined.

(** ** Error reports *)

Section Reports.
Context {W : World}.

Lemma reports_ret {A} (a : A) : reports (mret a).
Proof. intros st cls message st' H. discriminate. Qed.

Lemma reports_other {A} (e : exn) :
  (forall cls message, e <> RaisedTuple cls message) -> reports (@raise A e).
Proof.
  intros He st cls message st' H. injection H as -> _.
  destruct (He cls message eq_refl).
Qed.

Lemma reports_out_of_fuel {A} : reports (@out_of_fuel A).
Proof. intros st cls message st' H. discriminate. Qed.

Lemma reports_bind {A B} (m : M A) (f : A -> M B) :
  reports m -> (forall a, reports (f a)) -> reports (m ≫= f).
Proof.
  intros Hm Hf st cls message st'. unfold mbind, M_bind.
  destruct (m st) as [[a|e|] s] eqn:E; intros H.
  - eapply Hf, H.
  - injection H as -> <-. eapply Hm, E.
  - discriminate.
Qed.

Lemma reports_log l : reports (log l).
Proof. intros st cls message st' H. discriminate. Qed.

Lemma reports_read_headers : reports read_headers.
Proof. intros st cls message st' H. discriminate. Qed.

Lemma reports_headers_getitem k : reports (headers_getitem k).
Proof.
  intros st cls message st'. rewrite headers_getitem_eq.
  destruct (headers st !! k); discriminate.
Qed.

Lemma reports_requests_get u h : reports (requests_get u h).
Proof.
  intros st cls message st'. unfold requests_get.
  destruct (server _ _); discriminate.
Qed.

Lemma reports_response_json r : reports (response_json r).
Proof.
  unfold response_json. destruct (json_body r);
    [apply reports_ret | apply reports_other; discriminate].
Qed.

Lemma reports_json_get k v : reports (json_get k v).
Proof.
  destruct v; simpl; try (apply reports_other; discriminate).
  apply reports_ret.
Qed.

Lemma reports_items v : reports (items v).
Proof.
  destruct v; simpl; try (apply reports_other; discriminate).
  apply reports_ret.
Qed.

Lemma reports_dict_getitem k d : reports (dict_getitem k d).
Proof.
  unfold dict_getitem. destruct (dict_get k d);
    [apply reports_ret | apply reports_other; discriminate].
Qed.

Lemma reports_log_next_list v : reports (log_next_list v).
Proof.
  unfold log_next_list. destruct (iter_str v);
    [apply reports_log | apply reports_other; discriminate].
Qed.

(** The report and the [raise] that follows it. *)
Lemma reports_report_then_raise {A} message session full_url resp cls :
  reports (log_response_error message session full_url resp;;
           @raise A (RaisedTuple cls message)).
Proof.
  intros st cls' message' st' H. injection H as _ <- <-.
  exists session, full_url, resp. apply last_snoc.
Qed.

Lemma reports_request_next_rec depth : forall path is_retry,
  reports (request_next_rec depth path is_retry).
Proof.
  induction depth as [|depth IH]; intros path is_retry;
    [apply reports_out_of_fuel|].
  simpl request_next_rec.
  apply reports_bind; [apply reports_read_headers|]. intros h.
  apply reports_bind; [apply reports_requests_get|]. intros resp.
  apply reports_bind; [apply reports_response_json|]. intros body.
  destruct (negb (status_ok resp)).
  - destruct is_retry.
    + apply reports_bind; [apply reports_headers_getitem|]. intros session.
      apply reports_report_then_raise.
    + apply reports_bind; [apply reports_json_get|]. intros err.
      destruct (negb _).
      * apply reports_bind; [apply reports_headers_getitem|]. intros session.
        apply reports_report_then_raise.
      * apply reports_bind; [apply reports_requests_get|]. intros fresh.
        apply reports_bind; [intros st cls message st' H; discriminate|].
        intros _.
        apply reports_bind; [apply reports_headers_getitem|]. intros session.
        apply reports_bind; [apply reports_log|]. intros _. apply IH.
  - apply reports_bind; [apply reports_json_get|]. intros secret.
    apply reports_bind; [apply reports_log|]. intros _.
    apply reports_bind; [apply reports_log|]. intros _.
    apply reports_ret.
Qed.

Lemma reports_for_each (visit : string -> M (list json)) paths :
  (forall p, reports (visit p)) -> reports (for_each visit paths).
Proof.
  intros Hvisit. induction paths as [|p paths IH]; simpl.
  - apply reports_ret.
  - apply reports_bind; [apply Hvisit|]. intros found.
    apply reports_bind; [apply IH|]. intros others. apply reports_ret.
Qed.

Lemma reports_get_next_secret fuel : forall path,
  reports (get_next_secret fuel path).
Proof.
  induction fuel as [|fuel IH]; intros path; [apply reports_out_of_fuel|].
  simpl get_next_secret.
  apply reports_bind; [apply reports_request_next_rec|]. intros resp.
  apply reports_bind; [apply reports_response_json|]. intros data.
  apply reports_bind; [apply reports_items|]. intros raw.
  destruct (dict_get "secret" (normalize_keys raw)) as [secret|].
  - apply reports_bind; [apply reports_log|]. intros _. apply reports_ret.
  - destruct (falsy_get "next" (normalize_keys raw)).
    + apply reports_bind; [apply reports_read_headers|]. intros h.
      apply reports_report_then_raise.
    + apply reports_bind; [apply reports_dict_getitem|]. intros next_list.
      apply reports_bind; [apply reports_log_next_list|]. intros _.
      destruct (iter_str next_list); [|apply reports_other; discriminate].
      apply reports_for_each, IH.
Qed.

End Reports.

(** X12. Whenever a traversal ends in one of the three errors that the
    program raises itself, the last thing that it has done is to log the
    error report with the message of that error: nothing is requested or
    logged between the report and the end. *)
Theorem own_errors_are_reported_last `{W : World} (fuel : nat) (path : string)
    (st : state) (cls : exc_class) (message : string) (st' : state) :
  get_next_secret fuel path st = (Raised (RaisedTuple cls message), st') ->
  exists session full_url resp,
    last (trace st') =
    Some (Logged (ResponseError message session full_url resp)).
Proof. apply reports_get_next_secret. Qed.

Lemma own_errors_are_reported_last_witness :
  exists session full_url resp,
    last (trace
      (@get_next_secret (table_world broken_tree_table) 2 "start" init_state).2) =
    Some (Logged (ResponseError missing_next_message session full_url resp)).
Proof.
  apply (@own_errors_are_reported_last (table_world broken_tree_table)
           2 "start" init_state KeyError_class missing_next_message).
  reflexivity.
Defined.

(** ** One request for each node *)

Section Walk.
Context {W : World}.
Variable good : gmap string string -> Prop.

(** The fetch of a node that the server answers. *)
Lemma answered_fetch path d st :
  answers good path d -> good (headers st) ->
  exists r,
    request_next (create_url path) st =
      (Returned r,
       {| headers := headers st;
          trace := trace st ++
            [ Sent (node_request (headers st) path);
              Logged (GetLine (node_url path) (py_or (dict_get "secret" d) (JStr "")));
              Logged (ResponseText (text r)) ] |}) /\
    json_body r = Some (JObj d).
Proof.
  intros Hans Hgood.
  destruct (Hans (requests_of (trace st)) (headers st) Hgood)
    as (r & Hserver & Hok & Hbody).
  exists r. split; [|exact Hbody]. unfold request_next.
  rewrite (request_next_success _ _ _ _ _ _ Hserver Hok Hbody).
  unfold after, node_request, node_url. cbn. rewrite <- !app_assoc.
  reflexivity.
Qed.

Lemma walked_children (visit : string -> M (list json)) :
  forall children : list (string * tree),
  Forall (fun c => walked good (visit c.1) (secrets c.2) (preorder c.1 c.2))
         children ->
  walked good (for_each visit (map fst children))
    (flat_map (fun c => secrets c.2) children)
    (flat_map (fun c => preorder c.1 c.2) children).
Proof.
  induction children as [|[p c] cs IH]; intros Hall st Hgood.
  - exists []. rewrite app_nil_r. destruct st. auto.
  - inversion Hall as [|? ? Hc Hcs]; subst.
    destruct (Hc st Hgood) as (new1 & H1 & Hreq1 & Href1).
    set (st1 := {| headers := headers st; trace := trace st ++ new1 |}) in *.
    destruct (IH Hcs st1 Hgood) as (new2 & H2 & Hreq2 & Href2).
    exists (new1 ++ new2). repeat split.
    + simpl in *. unfold mbind, M_bind. rewrite H1, H2.
      unfold st1. cbn. rewrite <- app_assoc. reflexivity.
    + rewrite requests_of_app, Hreq1, Hreq2. simpl.
      rewrite map_app. reflexivity.
    + rewrite refreshes_of_app, Href1, Href2. reflexivity.
Qed.

(** What is left of [get_next_secret] once the node is fetched, for a
    node that the tree expects. *)
Lemma walked_rest fuel path (t : tree) st r st1 d :
  request_next (create_url path) st = (Returned r, st1) ->
  json_body r = Some (JObj d) ->
  good (headers st1) ->
  match t with
  | Leaf secret => dict_get "secret" (normalize_keys d) = Some secret
  | Branch children =>
      children <> [] /\
      dict_get "secret" (normalize_keys d) = None /\
      dict_get "next" (normalize_keys d) =
        Some (JArr (map (fun c => JStr c.1) children)) /\
      Forall (fun c => walked good (get_next_secret fuel c.1) (secrets c.2)
                         (preorder c.1 c.2)) children
  end ->
  exists new,
    get_next_secret (S fuel) path st =
      (Returned (secrets t),
       {| headers := headers st1; trace := trace st1 ++ new |}) /\
    requests_of new = map (node_request (headers st1)) (tail (preorder path t)) /\
    refreshes_of new = [].
Proof.
  intros Hfetch Hbody Hgood Hnode.
  rewrite (get_next_secret_fetched _ _ _ _ _ _ Hfetch Hbody).
  destruct t as [secret|children].
  - rewrite Hnode. eexists [_]. repeat split.
  - destruct Hnode as (Hne & Hsecret & Hnext & Hall). rewrite Hsecret.
    unfold falsy_get, dict_getitem. rewrite Hnext.
    replace (negb (truthy (JArr (map (fun c => JStr c.1) children)))) with false
      by (destruct children; [congruence|reflexivity]).
    unfold mbind, M_bind, mret, M_ret, log_next_list.
    rewrite iter_str_paths. unfold log, emit.
    set (line := Logged (NextList (join newline (map fst children)))).
    destruct (walked_children _ children Hall (after st1 line) Hgood)
      as (new & Hrun & Hreq & Href).
    exists (line :: new). repeat split.
    + rewrite Hrun. unfold after. cbn. rewrite <- app_assoc. reflexivity.
    + exact Hreq.
    + exact Href.
Qed.

(** The node at the root of a served tree, with its children walked. *)
Lemma served_node fuel t path :
  (forall t' path', serves_directly good path' t' -> depth t' < fuel ->
     walked good (get_next_secret fuel path') (secrets t') (preorder path' t')) ->
  serves_directly good path t -> depth t < S fuel ->
  exists d, answers good path d /\
    match t with
    | Leaf secret => dict_get "secret" (normalize_keys d) = Some secret
    | Branch children =>
        children <> [] /\
        dict_get "secret" (normalize_keys d) = None /\
        dict_get "next" (normalize_keys d) =
          Some (JArr (map (fun c => JStr c.1) children)) /\
        Forall (fun c => walked good (get_next_secret fuel c.1)
                           (secrets c.2) (preorder c.1 c.2)) children
    end.
Proof.
  intros IH Hserves Hdepth. destruct t as [secret|children].
  - destruct Hserves as (d & Hans & Hsecret). eauto.
  - destruct Hserves as (Hne & (d & Hans & Hsecret & Hnext) & Hall).
    exists d. repeat split; auto.
    simpl in Hdepth. apply Nat.succ_lt_mono in Hdepth.
    clear - IH Hall Hdepth.
    induction children as [|[p c] cs IHcs]; constructor.
    + apply IH; [apply Hall|]. simpl in *. lia.
    + apply IHcs; [apply Hall|]. simpl in *. lia.
Qed.

Lemma walked_tree : forall fuel t path,
  serves_directly good path t -> depth t < fuel ->
  walked good (get_next_secret fuel path) (secrets t) (preorder path t).
Proof.
  induction fuel as [|fuel IH]; intros t path Hserves Hdepth; [lia|].
  intros st Hgood.
  destruct (served_node fuel t path IH Hserves Hdepth) as (d & Hans & Hnode).
  destruct (answered_fetch path d st Hans Hgood) as (r & Hfetch & Hbody).
  destruct (walked_rest fuel path t st r _ d Hfetch Hbody Hgood Hnode)
    as (new & Hrun & Hreq & Href).
  cbn [headers trace] in Hrun, Hreq.
  exists ([ Sent (node_request (headers st) path);
            Logged (GetLine (node_url path) (py_or (dict_get "secret" d) (JStr "")));
            Logged (ResponseText (text r)) ] ++ new).
  repeat split.
  - rewrite Hrun, <- app_assoc. reflexivity.
  - rewrite requests_of_app, Hreq. destruct t; reflexivity.
  - rewrite refreshes_of_app, Href. reflexivity.
Qed.

(** The fetch of a node that the server turns down at first and answers
    once the token is there. *)
Lemma refreshed_fetch token path d st :
  (forall h, good h <-> h !! "Session" = Some token) ->
  demands good path -> hands_out token -> answers good path d ->
  ~ good (headers st) ->
  let h2 := <["Session" := token]> (headers st) in
  exists r line,
    request_next (create_url path) st =
      (Returned r,
       {| headers := h2;
          trace := trace st ++
            [ Sent (node_request (headers st) path);
              Sent {| url := create_url "get-session"; req_headers := ∅ |};
              Logged (NewSessionToken token);
              Sent (node_request h2 path);
              Logged line;
              Logged (ResponseText (text r)) ] |}) /\
    (forall t, line <> NewSessionToken t) /\
    json_body r = Some (JObj d).
Proof.
  intros Hgood Hdemands Hsession Hans Hbad h2.
  destruct (Hdemands (requests_of (trace st)) (headers st) Hbad)
    as (r1 & d1 & err & H1 & Hok1 & Hbody1 & Herr & Htruthy).
  destruct (Hsession (requests_of (trace st) ++ [node_request (headers st) path]))
    as (fresh & Hfresh & Htext).
  assert (Hgood2 : good h2) by (apply Hgood, lookup_insert_eq).
  destruct (Hans (requests_of (trace st) ++
                  [node_request (headers st) path;
                   {| url := create_url "get-session"; req_headers := ∅ |}])
              h2 Hgood2) as (r2 & H2 & Hok2 & Hbody2).
  exists r2, (GetLine (node_url path) (py_or (dict_get "secret" d) (JStr ""))).
  split; [|split; [discriminate|exact Hbody2]].
  unfold request_next.
  rewrite (request_next_refresh _ _ _ _ _ _ H1 Hok1 Hbody1 Herr Htruthy).
  cbv zeta. fold (node_url path). fold (node_request (headers st) path).
  rewrite Hfresh, Htext. fold h2.
  rewrite (request_next_success 0 (create_url path) true _ r2 d).
  - unfold after. cbn. rewrite <- !app_assoc. reflexivity.
  - cbn [headers trace]. rewrite requests_of_app. exact H2.
  - exact Hok2.
  - exact Hbody2.
Qed.

End Walk.

(** X13. For a tree whose nodes the server answers at the first attempt,
    the traversal sends exactly one request for each node, in the order
    of a depth-first walk (a node before its children, the children from
    left to right), each with the [headers] as they were at the start;
    it does not refresh, leaves the [headers] as they were and returns
    the secrets of the leaves. *)
Theorem one_request_per_node_in_preorder `{W : World}
    (good : gmap string string -> Prop) (t : tree) (path : string)
    (fuel : nat) (st : state) :
  serves_directly good path t ->
  good (headers st) ->
  depth t < fuel ->
  exists new,
    get_next_secret fuel path st =
      (Returned (secrets t),
       {| headers := headers st; trace := trace st ++ new |}) /\
    requests_of new = map (node_request (headers st)) (preorder path t) /\
    refreshes_of new = [].
Proof.
  intros Hserves Hgood Hdepth.
  apply (walked_tree good fuel t path Hserves Hdepth st Hgood).
Qed.

Lemma table_world_answers table path r d :
  table_server table [] (@node_request (table_world table) ∅ path) = Answer r ->
  status_ok r = true ->
  json_body r = Some (JObj d) ->
  @answers (table_world table) (fun _ => True) path d.
Proof. intros Hserver Hok Hbody hist h _. exists r. auto. Qed.

Lemma example_tree_served_directly :
  @serves_directly (table_world example_tree_table) (fun _ => True)
    "start" example_tree.
Proof.
  simpl. repeat split; try discriminate.
  - eexists. split; [eapply table_world_answers; reflexivity|]. split; reflexivity.
  - eexists. split; [eapply table_world_answers; reflexivity|]. reflexivity.
  - eexists. split; [eapply table_world_answers; reflexivity|]. split; reflexivity.
  - eexists. split; [eapply table_world_answers; reflexivity|]. reflexivity.
Qed.

Lemma one_request_per_node_in_preorder_witness :
  exists new,
    @get_next_secret (table_world example_tree_table) 3 "start" init_state =
      (Returned [JStr "X"; JStr "Y"],
       {| headers := ∅; trace := [] ++ new |}) /\
    requests_of new =
      map (@node_request (table_world example_tree_table) ∅)
          ["start"; "a"; "b"; "c"] /\
    refreshes_of new = [].
Proof.
  apply (@one_request_per_node_in_preorder (table_world example_tree_table)
           (fun _ => True) example_tree "start" 3 init_state).
  - exact example_tree_served_directly.
  - exact I.
  - simpl. lia.
Defined.

(** X14. One refresh serves the whole traversal.  When the server answers
    the nodes of a tree to the requests that carry a token, turns the
    first node down without it and hands the token out at the session
    endpoint, a traversal that starts without the token requests the first
    node, fetches the token, and then requests each node once, in the
    order of a depth-first walk and with the token; it refreshes once,
    keeps the token in the [headers] and returns the secrets of the
    leaves. *)
Theorem one_refresh_serves_the_traversal `{W : World} (token : string)
    (t : tree) (path : string) (fuel : nat) (st : state) :
  let good := fun h : gmap string string => h !! "Session" = Some token in
  let h2 := <["Session" := token]> (headers st) in
  serves_directly good path t ->
  demands good path ->
  hands_out token ->
  headers st !! "Session" <> Some token ->
  depth t < fuel ->
  exists new,
    get_next_secret fuel path st =
      (Returned (secrets t), {| headers := h2; trace := trace st ++ new |}) /\
    requests_of new =
      node_request (headers st) path ::
      {| url := create_url "get-session"; req_headers := ∅ |} ::
      map (node_request h2) (preorder path t) /\
    refreshes_of new = [token].
Proof.
  intros good h2 Hserves Hdemands Hsession Hbad Hdepth.
  destruct fuel as [|fuel]; [lia|].
  destruct (served_node good fuel t path (walked_tree good fuel) Hserves Hdepth)
    as (d & Hans & Hnode).
  destruct (refreshed_fetch good token path d st)
    as (r & line & Hfetch & Hline & Hbody);
    [reflexivity | assumption | assumption | assumption | assumption |].
  assert (Hgood2 : good h2) by apply lookup_insert_eq.
  destruct (walked_rest good fuel path t st r _ d Hfetch Hbody Hgood2 Hnode)
    as (new & Hrun & Hreq & Href).
  cbn [headers trace] in Hrun, Hreq. fold h2 in Hrun, Hreq.
  exists ([ Sent (node_request (headers st) path);
            Sent {| url := create_url "get-session"; req_headers := ∅ |};
            Logged (NewSessionToken token);
            Sent (node_request h2 path);
            Logged line;
            Logged (ResponseText (text r)) ] ++ new).
  repeat split.
  - rewrite Hrun, <- app_assoc. reflexivity.
  - rewrite requests_of_app, Hreq. destruct t; reflexivity.
  - rewrite refreshes_of_app, Href.
    destruct line; try reflexivity. destruct (Hline token0 eq_refl).
Qed.

Lemma session_world_answers token table path r d :
  String.eqb (@node_url (session_world token table) path)
    (example_urljoin example_base "get-session") = false ->
  table_server table [] (@node_request (table_world table) ∅ path) = Answer r ->
  status_ok r = true ->
  json_body r = Some (JObj d) ->
  @answers (session_world token table)
    (fun h => h !! "Session" = Some token) path d.
Proof.
  intros Hurl Hserver Hok Hbody hist h Hh. exists r.
  split; [|auto]. cbn. unfold session_server. cbn [url req_headers node_request].
  rewrite Hurl, Hh, String.eqb_refl. exact Hserver.
Qed.

Lemma session_world_demands token table path :
  String.eqb (@node_url (session_world token table) path)
    (example_urljoin example_base "get-session") = false ->
  @demands (session_world token table)
    (fun h => h !! "Session" = Some token) path.
Proof.
  intros Hurl hist h Hh.
  exists (failed [("error", JStr "session expired")]),
    [("error", JStr "session expired")], (JStr "session expired").
  split; [|auto]. cbn. unfold session_server. cbn [url req_headers node_request].
  rewrite Hurl. destruct (h !! "Session") as [t|]; [|reflexivity].
  destruct (String.eqb_spec t token) as [->|]; [contradiction|reflexivity].
Qed.

Lemma session_world_hands_out token table :
  @hands_out (session_world token table) token.
Proof. intros hist. exists (plain token). split; reflexivity. Qed.

Lemma guarded_tree_served :
  @serves_directly (session_world "tok" example_tree_table)
    (fun h => h !! "Session" = Some "tok") "start" example_tree.
Proof.
  simpl. repeat split; try discriminate.
  - eexists. split; [eapply session_world_answers; reflexivity|]. split; reflexivity.
  - eexists. split; [eapply session_world_answers; reflexivity|]. reflexivity.
  - eexists. split; [eapply session_world_answers; reflexivity|]. split; reflexivity.
  - eexists. split; [eapply session_world_answers; reflexivity|]. reflexivity.
Qed.

Lemma one_refresh_serves_the_traversal_witness :
  exists new,
    @get_next_secret (session_world "tok" example_tree_table) 3 "start" init_state =
      (Returned [JStr "X"; JStr "Y"],
       {| headers := <["Session" := "tok"]> ∅; trace := [] ++ new |}) /\
    requests_of new =
      @node_request (session_world "tok" example_tree_table) ∅ "start" ::
      {| url := "http://localhost:5000/get-session"; req_headers := ∅ |} ::
      map (@node_request (session_world "tok" example_tree_table)
             (<["Session" := "tok"]> ∅))
          ["start"; "a"; "b"; "c"] /\
    refreshes_of new = ["tok"].
Proof.
  apply (@one_refresh_serves_the_traversal (session_world "tok" example_tree_table)
           "tok" example_tree "start" 3 init_state).
  - exact guarded_tree_served.
  - apply session_world_demands. reflexivity.
  - apply session_world_hands_out.
  - discriminate.
  - simpl. lia.
Defined.

(** ** The log line of a request *)

(** X15. The line that [request_next] logs for a successful request looks
    the secret up in the body as it came, while the traversal looks it up
    in the normalised body: for a leaf whose key is spelled in another
    case (["Secret"]), the line shows an empty secret, and the secret is
    found and yielded all the same. *)
Theorem log_line_misses_secret_in_other_case `{W : World} (fuel : nat)
    (path : string) (st : state) (r : response) (d : dict) (secret : json) :
  server (requests_of (trace st)) (node_request (headers st) path) = Answer r ->
  status_ok r = true ->
  json_body r = Some (JObj d) ->
  dict_get "secret" d = None ->
  last_with_lower "secret" d = Some secret ->
  get_next_secret (S fuel) path st =
  (Returned [secret],
   {| headers := headers st;
      trace := trace st ++
        [ Sent (node_request (headers st) path);
          Logged (GetLine (node_url path) (JStr ""));
          Logged (ResponseText (text r));
          Logged (SecretFound secret (create_url path)) ] |}).
Proof.
  intros Hserver Hok Hbody Hraw Hlast.
  assert (Hfetch := request_next_success 1 (create_url path) false st r d
                      Hserver Hok Hbody).
  fold (request_next (create_url path)) in Hfetch.
  rewrite (get_next_secret_fetched _ _ _ _ _ _ Hfetch Hbody).
  assert (Hget : dict_get "secret" (normalize_keys d) = Some secret).
  { change (normalize_keys d) with (store_lower [] d).
    rewrite store_lower_get, Hlast. reflexivity. }
  rewrite Hget, Hraw. unfold after, node_request, node_url. cbn.
  rewrite <- !app_assoc. reflexivity.
Qed.

Lemma log_line_misses_secret_in_other_case_witness :
  @get_next_secret (table_world example_tree_table) 1 "c" init_state =
  (Returned [JStr "Y"],
   {| headers := ∅;
      trace :=
        [ Sent {| url := "http://localhost:5000/c"; req_headers := ∅ |};
          Logged (GetLine "http://localhost:5000/c" (JStr ""));
          Logged (ResponseText "");
          Logged (SecretFound (JStr "Y") "http://localhost:5000/c") ] |}).
Proof.
  apply (@log_line_misses_secret_in_other_case (table_world example_tree_table)
           0 "c" init_state (ok [("SECRET", JStr "Y")]) [("SECRET", JStr "Y")]
           (JStr "Y"));
    reflexivity.
Defined.
